(** * THC Edge API gateway: rate limiter, response cache, request
      coordinator

    A shallow embedding of [thc_edge/rate_limit.py], [thc_edge/storage.py]
    and [thc_edge/api_client.py], with the properties of the gateway
    specification stated over it, followed by further properties of
    the same code, of [discord_bot/key_store.py] and of
    [parse_member_ids] in [discord_bot/bot.py].

    Conventions of the embedding.
    - Python [float] quantities (token counts, timestamps, sleep
      durations) are rationals [Q]; Python [int] is [Z]. The token
      arithmetic of the rate limiter is written without rounding, and
      the properties stated of it are those that rounding leaves
      alone; the float power of the retry backoff, which rounds and
      overflows, is [ApiClient.backoff].
    - [time.time()] is an input: every function that reads the clock
      takes the readings as arguments, in program order.
    - [Optional[int]] arguments are [option Z]; Python's [x or d] is
      written out ([None] and [0] are falsy).
    - Dictionaries are [gmap]s, except where insertion order matters
      (the query parameters of a request), which are association lists.
    - Coroutines run under asyncio's single-threaded scheduler: code
      between two [await]s is one step of a transition system. *)

From Stdlib Require Import ZArith QArith Qminmax Lia Lqa.
From stdpp Require Import gmap strings list sorting pretty.

Local Open Scope Z_scope.

(* ================================================================== *)
(** * Definitions *)
(* ================================================================== *)

(** ** [thc_edge/config.py] *)

Module Config.

Definition RATE_LIMIT_CALLS : Z := 80.
Definition RATE_LIMIT_PERIOD : Z := 60.
Definition CACHE_TTL_SECONDS : Z := 3600.
Definition CACHE_SESSION_ONLY : bool := true.
Definition HTTP_TIMEOUT : Z := 30.
Definition HTTP_RETRIES : Z := 3.
Definition HTTP_BACKOFF_FACTOR : Q := 3 # 2.

End Config.

(** ** [thc_edge/rate_limit.py] *)

Module RateLimit.

(** The fields of [TokenBucket] ([_lock] is the mutual exclusion of the
    refill-and-debit step, which is a single function here). *)
Record TokenBucket : Type := mkTokenBucket {
  capacity : Z;
  refill_rate : Q;
  tokens : Q;
  last_refill : Q
}.

(** [TokenBucket.__init__], with [now] the reading of [time.time()]. *)
Definition init (cap : Z) (rate : Q) (now : Q) : TokenBucket :=
  {| capacity := cap; refill_rate := rate;
     tokens := inject_Z cap; last_refill := now |}.

(** The refill half of the locked block (lines 49-53). *)
Definition refill (b : TokenBucket) (now : Q) : TokenBucket :=
  let elapsed := (now - last_refill b)%Q in
  let refilled := (elapsed * refill_rate b)%Q in
  {| capacity := capacity b; refill_rate := refill_rate b;
     tokens := Qmin (inject_Z (capacity b)) (tokens b + refilled)%Q;
     last_refill := now |}.

(** The locked block of [acquire] (lines 47-59): refill, then debit [n]
    when [self.tokens >= tokens]. The boolean says whether the block
    returned [True]; on [false] control falls out of the block and the
    caller polls again. *)
Definition refill_and_debit (b : TokenBucket) (now : Q) (n : Z)
  : TokenBucket * bool :=
  let b1 := refill b now in
  if Qle_bool (inject_Z n) (tokens b1)
  then ({| capacity := capacity b1; refill_rate := refill_rate b1;
           tokens := (tokens b1 - inject_Z n)%Q;
           last_refill := last_refill b1 |}, true)
  else (b1, false).

(** One iteration of [while True] reads the clock in the locked block
    and once more for the timeout test (only consulted when a timeout
    was given). *)
Record Poll : Type := mkPoll { poll_now : Q; poll_check : Q }.

(** The [while True] loop of [TokenBucket.acquire] over the clock
    readings that occur while it runs. It yields the bucket after each
    refill-and-debit step, in order, and the returned boolean
    ([None]: the call is still polling when the readings end). *)
Fixpoint acquire_loop (b : TokenBucket) (n : Z) (timeout : option Q)
    (start_time : Q) (clock : list Poll)
  : list TokenBucket * option bool :=
  match clock with
  | [] => ([], None)
  | p :: clock' =>
      let '(b', ok) := refill_and_debit b (poll_now p) n in
      if ok then ([b'], Some true)
      else
        match timeout with
        | Some t =>
            if Qle_bool (poll_check p - start_time)%Q t
            then
              let '(bs, r) := acquire_loop b' n timeout start_time clock' in
              (b' :: bs, r)
            else ([b'], Some false)
        | None =>
            let '(bs, r) := acquire_loop b' n timeout start_time clock' in
            (b' :: bs, r)
        end
  end.

(** [TokenBucket.acquire]: the bucket it leaves and what it returns. *)
Definition acquire (b : TokenBucket) (n : Z) (timeout : option Q)
    (start_time : Q) (clock : list Poll) : TokenBucket * option bool :=
  let '(bs, r) := acquire_loop b n timeout start_time clock in
  (List.last bs b, r).

(** [wait_until_available]: [acquire] without a timeout, result dropped. *)
Definition wait_until_available (b : TokenBucket) (n : Z) (start_time : Q)
    (clock : list Poll) : TokenBucket :=
  fst (acquire b n None start_time clock).

(** One call of [acquire] with the clock readings taken during it. *)
Record Call : Type := mkCall {
  call_tokens : Z;
  call_timeout : option Q;
  call_start : Q;
  call_clock : list Poll
}.

(** The bucket after every refill-and-debit step of a sequence of
    [acquire] calls on one bucket. *)
Fixpoint run_calls (b : TokenBucket) (calls : list Call)
  : list TokenBucket :=
  match calls with
  | [] => []
  | c :: calls' =>
      let bs := fst (acquire_loop b (call_tokens c) (call_timeout c)
                       (call_start c) (call_clock c)) in
      bs ++ run_calls (List.last bs b) calls'
  end.

(** The token count invariant. *)
Definition tokens_in_range (b : TokenBucket) : Prop :=
  (0 <= tokens b)%Q /\ (tokens b <= inject_Z (capacity b))%Q.

(** The clock does not run backwards from [t0] over the readings of a
    call. *)
Fixpoint clock_ok (t0 : Q) (clock : list Poll) : Prop :=
  match clock with
  | [] => True
  | p :: clock' => (t0 <= poll_now p)%Q /\ clock_ok (poll_now p) clock'
  end.

(** A sequence of calls is well formed on bucket [b]: no call asks for
    a negative number of tokens and the clock does not run backwards,
    within a call and from one call to the next. *)
Fixpoint calls_ok (b : TokenBucket) (calls : list Call) : Prop :=
  match calls with
  | [] => True
  | c :: calls' =>
      0 <= call_tokens c /\
      clock_ok (last_refill b) (call_clock c) /\
      calls_ok (fst (acquire b (call_tokens c) (call_timeout c)
                       (call_start c) (call_clock c))) calls'
  end.

(** Two calls on a bucket of capacity 2 refilled at one token per
    second: the first takes a token at once, the second asks for two
    and has to poll twice. *)
Definition sample_bucket : TokenBucket := init 2 1 0.

Definition sample_calls : list Call :=
  [ mkCall 1 None 0 [mkPoll 0 0];
    mkCall 2 (Some 5%Q) 0 [mkPoll (1 # 2) (1 # 2); mkPoll (3 # 2) (3 # 2)] ].

(** "For every sequence of [TokenBucket.acquire] calls and any elapsed
    wall-clock time between them, the bucket's token count satisfies
    [0 <= tokens <= capacity] after every refill-and-debit step": any
    calls, any clock readings. *)
Definition tokens_invariant_as_stated : Prop :=
  forall (cap : Z) (rate t0 : Q) (calls : list Call),
    0 <= cap -> (0 <= rate)%Q ->
    Forall tokens_in_range (run_calls (init cap rate t0) calls).

(** [acquire(-1)] on the sample bucket, and [acquire(1)] when the
    wall clock has been set back by five seconds. *)
Definition negative_request : list Call := [mkCall (-1) None 0 [mkPoll 0 0]].

Definition clock_set_back : list Call :=
  [mkCall 1 (Some 0%Q) (-5) [mkPoll (-5) (-5)]].

End RateLimit.

(** ** Python idioms *)

Module Py.

(** [x or d] on an [Optional[int]]: [None] and [0] are falsy. *)
Definition or_default (x : option Z) (d : Z) : Z :=
  match x with
  | None => d
  | Some v => if v =? 0 then d else v
  end.

End Py.

(** ** [thc_edge/storage.py] *)

Module Storage.

(** A cache key is the pair [(player_id, endpoint)]. *)
Abbreviation Key := (string * string)%type.

(** The SQL statements that reach the [api_cache] table. *)
Inductive DbOp : Type :=
| DbSelect (k : Key)
| DbInsertOrReplace (k : Key)
| DbDelete (k : Key)
| DbDeleteExpired (now : Q).

(** A row of [api_cache]: [response_data] is the JSON text. *)
Record DbRow : Type := mkDbRow {
  response_data : string;
  created_at : Q;
  ttl_seconds : Z
}.

Section CacheOps.

Context {Payload : Type}.
(** [json.dumps] and [json.loads] on payloads. *)
Variable json_dumps : Payload -> string.
Variable json_loads : string -> Payload.

(** A value of [_memory_cache]: the tuple [(data, created_at, ttl)]. *)
Record MemEntry : Type := mkMemEntry {
  mem_data : Payload;
  mem_created_at : Q;
  mem_ttl : Z
}.

(** The cache object: its memory tier, the [session_only] flag, and the
    durable tier, which is the table [api_cache] with the log of the
    statements executed against it. *)
Record Cache : Type := mkCache {
  _memory_cache : gmap Key MemEntry;
  session_only : bool;
  api_cache : gmap Key DbRow;
  db_log : list DbOp
}.

Definition set_memory (c : Cache) (m : gmap Key MemEntry) : Cache :=
  {| _memory_cache := m; session_only := session_only c;
     api_cache := api_cache c; db_log := db_log c |}.

Definition db_exec (c : Cache) (op : DbOp) (t : gmap Key DbRow) : Cache :=
  {| _memory_cache := _memory_cache c; session_only := session_only c;
     api_cache := t; db_log := db_log c ++ [op] |}.

(** [elapsed <= ttl_seconds], with [elapsed = now - created_at]. *)
Definition fresh (now created : Q) (ttl : Z) : bool :=
  Qle_bool (now - created)%Q (inject_Z ttl).

(** [Cache.delete_cached_response]. *)
Definition delete_cached_response (c : Cache) (k : Key) : Cache :=
  let c1 := set_memory c (delete k (_memory_cache c)) in
  if session_only c1 then c1
  else db_exec c1 (DbDelete k) (delete k (api_cache c1)).

(** [Cache.get_cached_response]; [now_mem] and [now_db] are the clock
    readings of lines 98 and 124. *)
Definition get_cached_response (c : Cache) (k : Key) (now_mem now_db : Q)
  : Cache * option Payload :=
  let lookup_db (c1 : Cache) : Cache * option Payload :=
    if session_only c1 then (c1, None)
    else
      let c2 := db_exec c1 (DbSelect k) (api_cache c1) in
      match api_cache c1 !! k with
      | None => (c2, None)
      | Some row =>
          if fresh now_db (created_at row) (ttl_seconds row)
          then
            let data := json_loads (response_data row) in
            (set_memory c2
               (<[k := mkMemEntry data (created_at row) (ttl_seconds row)]>
                  (_memory_cache c2)),
             Some data)
          else (delete_cached_response c2 k, None)
      end in
  match _memory_cache c !! k with
  | Some e =>
      if fresh now_mem (mem_created_at e) (mem_ttl e)
      then (c, Some (mem_data e))
      else lookup_db (set_memory c (delete k (_memory_cache c)))
  | None => lookup_db c
  end.

(** [Cache.cache_response]; [now_mem] and [now_db] are the clock
    readings of lines 147 and 159. *)
Definition cache_response (c : Cache) (k : Key) (data : Payload)
    (ttl_arg : option Z) (now_mem now_db : Q) : Cache :=
  let ttl := Py.or_default ttl_arg Config.CACHE_TTL_SECONDS in
  let c1 := set_memory c (<[k := mkMemEntry data now_mem ttl]> (_memory_cache c)) in
  if session_only c1 then c1
  else db_exec c1 (DbInsertOrReplace k)
         (<[k := mkDbRow (json_dumps data) now_db ttl]> (api_cache c1)).

(** [Cache.clear_expired]. The memory tier drops the entries with
    [now - created_at > ttl_seconds], the table the rows with
    [created_at + ttl_seconds < now]. *)
Definition clear_expired (c : Cache) (now : Q) : Cache :=
  let keep_mem (kv : Key * MemEntry) : Prop :=
    fresh now (mem_created_at kv.2) (mem_ttl kv.2) = true in
  let keep_row (kv : Key * DbRow) : Prop :=
    Qle_bool now (created_at kv.2 + inject_Z (ttl_seconds kv.2))%Q = true in
  let c1 := set_memory c (filter keep_mem (_memory_cache c)) in
  if session_only c1 then c1
  else db_exec c1 (DbDeleteExpired now) (filter keep_row (api_cache c1)).

(** [Cache.__init__] after [_init_db]: an empty memory tier; [table] is
    what the database file holds. *)
Definition init (session : bool) (table : gmap Key DbRow) : Cache :=
  {| _memory_cache := ∅; session_only := session;
     api_cache := table; db_log := [] |}.

(** What an operation may not do to the durable tier: change the table
    or execute a statement. *)
Definition durable_untouched (c c' : Cache) : Prop :=
  api_cache c' = api_cache c /\ db_log c' = db_log c /\
  session_only c' = session_only c.

End CacheOps.

Arguments MemEntry : clear implicits.
Arguments Cache : clear implicits.

End Storage.

(** *** Sample values and the TTL property as the specification words it *)

Module StorageSamples.
Import Storage.

Definition sample_key : Key := ("2531272"%string, "player_stats"%string).

(** Payloads as their JSON text; [json.dumps] and [json.loads] are then
    the identity. *)
Definition empty_session_cache : Cache string := init true ∅.
Definition empty_durable_cache : Cache string := init false ∅.

(** "An entry stored with [ttlSeconds = T] is returned identically by
    [get] at any time [t < T] after storage, and is a miss for any
    [get] at [t >= T + eps]", for every [T] handed to
    [cache_response]. *)
Definition ttl_property_as_stated : Prop :=
  forall (c : Cache string) (k : Key) (data : string) (T : Z) (t0 t eps : Q),
    (0 < eps)%Q -> (0 <= t)%Q ->
    let c' := cache_response id c k data (Some T) t0 t0 in
    let answer := (get_cached_response id c' k (t0 + t) (t0 + t)).2 in
    ((t < inject_Z T)%Q -> answer = Some data) /\
    ((inject_Z T + eps <= t)%Q -> answer = None).

(** A durable cache holding one entry stored at time 0 (the row at 1/10)
    with a TTL of 300 seconds, and the same in session-only mode. *)
Definition durable_with_entry : Cache string :=
  cache_response id empty_durable_cache sample_key "{}"%string (Some 300) 0 (1 # 10).

Definition session_with_entry : Cache string :=
  cache_response id empty_session_cache sample_key "{}"%string (Some 300) 0 0.

Definition other_key : Key := ("2531272"%string, "player_history"%string).

End StorageSamples.

(** ** [thc_edge/api_client.py] *)

Module ApiClient.

(** *** The network, as the retry loop sees it *)

(** The [Retry-After] header of a response, as [int(...)] reads it:
    absent (the default [60] applies), an integer, or text on which
    [int] raises [ValueError]. *)
Inductive RetryAfter : Type :=
| RetryAfterAbsent
| RetryAfterSeconds (s : Z)
| RetryAfterMalformed.

(** What [await resp.json()] does: the parsed document, aiohttp's
    [ContentTypeError], or a [JSONDecodeError]. *)
Inductive Body (Payload : Type) : Type :=
| BodyJson (data : Payload)
| BodyContentTypeError
| BodyDecodeError.
Arguments BodyJson {Payload} data.
Arguments BodyContentTypeError {Payload}.
Arguments BodyDecodeError {Payload}.

Record Response (Payload : Type) : Type := mkResponse {
  status : Z;
  retry_after : RetryAfter;
  body : Body Payload
}.
Arguments mkResponse {Payload} status retry_after body.
Arguments status {Payload} r.
Arguments retry_after {Payload} r.
Arguments body {Payload} r.

(** What one [session.request] does: a response arrives, the transport
    fails with an [aiohttp.ClientError] (connection refused, reset,
    ...), or another exception is raised (for instance
    [asyncio.TimeoutError]). *)
Inductive NetOutcome (Payload : Type) : Type :=
| NetResponse (r : Response Payload)
| NetClientError (msg : string)
| NetOtherError (msg : string).
Arguments NetResponse {Payload} r.
Arguments NetClientError {Payload} msg.
Arguments NetOtherError {Payload} msg.

(** *** Exceptions *)

(** The instances of [aiohttp.ClientError] the loop can catch:
    a transport failure, the [ClientResponseError] of
    [resp.raise_for_status()] (a subclass of [ClientError]), and the
    [ContentTypeError] of [resp.json()] (a subclass of
    [ClientResponseError]). *)
Inductive ClientError : Type :=
| TransportError (msg : string)
| ClientResponseError (status : Z)
| ContentTypeError (status : Z).

(** What a request can raise to its caller. The two [RuntimeError]s are
    those of lines 164 and 170; [OverflowError] is raised by the float
    power [backoff_factor ** attempt]; the others are re-raised by
    [except Exception: raise]. *)
Inductive Exn : Type :=
| RuntimeError_FailedAfter (attempts : Z) (cause : ClientError)
| RuntimeError_MaxRetries (retries : Z)
| ValueError_RetryAfter
| JSONDecodeError
| OverflowError
| OtherError (msg : string).

Inductive Result (Payload : Type) : Type :=
| Return (data : Payload)
| Raise (e : Exn).
Arguments Return {Payload} data.
Arguments Raise {Payload} e.

(** *** Effects of the retry loop, in order *)
Inductive Event : Type :=
| EvAcquire (n : Z)          (* rate_limiter.wait_until_available(n) *)
| EvRequest (attempt : Z)    (* session.request, at this attempt *)
| EvSleep (seconds : Q)      (* asyncio.sleep of exactly that long *)
| EvSleepBackoff (attempt : Z).
    (* asyncio.sleep(backoff_factor ** attempt) where the power is a
       rounded double: (3/2)^attempt to within the rounding of the
       platform's pow *)

(** The float [backoff_factor ** attempt] as the loop sleeps it, for
    the factor [Config.HTTP_BACKOFF_FACTOR = 1.5] and an attempt number,
    which is never negative. Up to attempt 33 the power [3^a / 2^a]
    fits the 53-bit significand of a double and is exact; from there to
    attempt 1750 it is rounded; from attempt 1751 on it is beyond the
    largest double and Python raises [OverflowError] ([None]). The
    bounds are those of [RetrySpec.backoff_thresholds]. *)
Definition backoff (attempt : Z) : option Event :=
  if attempt <=? 33
  then Some (EvSleep (Config.HTTP_BACKOFF_FACTOR ^ attempt)%Q)
  else if attempt <=? 1750 then Some (EvSleepBackoff attempt)
  else None.

Definition is_request (e : Event) : bool :=
  match e with EvRequest _ => true | _ => false end.

(** Number of network calls in a trace. *)
Definition network_attempts (tr : list Event) : nat :=
  length (List.filter is_request tr).

Section Requests.

Context {Payload : Type}.

(** The [n]-th network call of a request ([n] is the attempt number,
    which the loop increments after every call that does not end it). *)
Variable net : Z -> NetOutcome Payload.

(** The [while attempt <= retries] loop of [_make_request_internal]
    (lines 110-170). [fuel] bounds the number of loop tests. *)
Fixpoint retry_loop (fuel : nat) (retries attempt : Z) (tr : list Event)
  : option (list Event * Result Payload) :=
  match fuel with
  | O => None
  | S fuel' =>
      if attempt <=? retries then
        let tr1 := tr ++ [EvAcquire 1; EvRequest attempt] in
        (* await asyncio.sleep(backoff_factor ** attempt); attempt += 1;
           continue *)
        let sleep_and_retry :=
          match backoff attempt with
          | Some sleep =>
              retry_loop fuel' retries (attempt + 1) (tr1 ++ [sleep])
          | None => Some (tr1, Raise OverflowError)
          end in
        (* except aiohttp.ClientError as e *)
        let on_client_error (e : ClientError) :=
          if attempt <? retries then sleep_and_retry
          else Some (tr1, Raise (RuntimeError_FailedAfter (retries + 1) e)) in
        match net attempt with
        | NetResponse resp =>
            if status resp =? 429 then
              match retry_after resp with
              | RetryAfterMalformed => Some (tr1, Raise ValueError_RetryAfter)
              | RetryAfterAbsent =>
                  retry_loop fuel' retries (attempt + 1)
                    (tr1 ++ [EvSleep (inject_Z 60)])
              | RetryAfterSeconds s =>
                  retry_loop fuel' retries (attempt + 1)
                    (tr1 ++ [EvSleep (inject_Z s)])
              end
            else if 500 <=? status resp then
              (* the warning formats backoff_factor ** attempt, inside
                 the try: its OverflowError is re-raised *)
              match backoff attempt with
              | None => Some (tr1, Raise OverflowError)
              | Some _ =>
                  if attempt <? retries then sleep_and_retry
                  else
                    (* resp.raise_for_status() raises ClientResponseError *)
                    on_client_error (ClientResponseError (status resp))
              end
            else if 400 <=? status resp then
              (* resp.raise_for_status() raises ClientResponseError *)
              on_client_error (ClientResponseError (status resp))
            else
              match body resp with
              | BodyJson data => Some (tr1, Return data)
              | BodyContentTypeError =>
                  on_client_error (ContentTypeError (status resp))
              | BodyDecodeError => Some (tr1, Raise JSONDecodeError)
              end
        | NetClientError msg => on_client_error (TransportError msg)
        | NetOtherError msg => Some (tr1, Raise (OtherError msg))
        end
      else Some (tr, Raise (RuntimeError_MaxRetries retries))
  end.

(** [retries = retries or Config.HTTP_RETRIES] (lines 99 and 183). *)
Definition effective_retries (retries : option Z) : Z :=
  Py.or_default retries Config.HTTP_RETRIES.

(** Loop tests that [retry_loop] can need from attempt [0]. *)
Definition loop_fuel (retries : Z) : nat := S (Z.to_nat (retries + 1)).

(** [APIClient._make_request_internal]: the events of the call and what
    it returns or raises. The method, URL, query parameters and headers
    go to the network unchanged and select [net]. *)
Definition _make_request_internal (retries : option Z)
  : option (list Event * Result Payload) :=
  let retries := effective_retries retries in
  retry_loop (loop_fuel retries) retries 0 [].


End Requests.

(** *** Request keys *)

(** [sorted] on strings: Python compares strings by code point, which
    is [String.leb] on the encoded text. Insertion sort; sorting is
    stable, as Python's is. *)
Fixpoint insert_sorted (k : string) (l : list string) : list string :=
  match l with
  | [] => [k]
  | x :: l' => if String.leb k x then k :: l else x :: insert_sorted k l'
  end.

(** The order of [sorted], as a relation. *)
Definition str_le (a b : string) : Prop := String.leb a b = true.

Fixpoint sorted (l : list string) : list string :=
  match l with
  | [] => []
  | x :: l' => insert_sorted x (sorted l')
  end.

(** A [dict] of query parameters in insertion order; keys are unique
    ([dict_wf]). Values are given as they format in an f-string. *)
Abbreviation Params := (list (string * string)).

Definition dict_wf (params : Params) : Prop := NoDup params.*1.

(** [params[k]]. *)
Fixpoint dict_get (params : Params) (k : string) : string :=
  match params with
  | [] => ""
  | (k', v) :: params' => if String.eqb k k' then v else dict_get params' k
  end.

(** [APIClient._request_key]. *)
Definition _request_key (method endpoint : string) (params : option Params)
  : string :=
  let params_key :=
    match params with
    | Some ((_ :: _) as ps) =>
        String.concat "&"
          (map (fun k => (k ++ "=" ++ dict_get ps k)%string)
             (sorted (map fst ps)))
    | _ => ""
    end in
  (method ++ ":" ++ endpoint ++ ":" ++ params_key)%string.

(** *** Batch fetch *)

(** [APIClient.fetch_multiple_players]: [responses] is what
    [asyncio.gather] returns for the tasks with [return_exceptions=True]:
    one entry per task, in the order of [player_ids]. *)
Definition collect {Payload : Type} (results : gmap string Payload)
    (pr : string * Result Payload) : gmap string Payload :=
  match pr.2 with
  | Raise _ => results                      (* logged, nothing stored *)
  | Return data => <[pr.1 := data]> results (* results[player_id] = response *)
  end.

Definition fetch_multiple_players {Payload : Type}
    (player_ids : list string) (responses : list (Result Payload))
  : gmap string Payload :=
  foldl collect ∅ (zip player_ids responses).

(** The payload of the last successful entry for [id], if any: what
    the loop over [zip(player_ids, responses)] leaves under [id]. *)
Fixpoint last_success {Payload : Type}
    (l : list (string * Result Payload)) (id : string)
  : option Payload :=
  match l with
  | [] => None
  | (k, r) :: l' =>
      match last_success l' id with
      | Some p => Some p
      | None =>
          match r with
          | Return p => if decide (k = id) then Some p else None
          | Raise _ => None
          end
      end
  end.

End ApiClient.

(** ** In-flight de-duplication: [APIClient._make_request] under the
       asyncio scheduler *)

Module Inflight.
Import ApiClient.

Section Coalescing.

Context {Payload : Type}.

(** A task made by [asyncio.create_task(self._make_request_internal(...))]:
    the [retries] it was launched with and, once it has run to its end,
    its events and outcome. *)
Record Task : Type := mkTask {
  task_retries : option Z;
  task_done : option (list Event * Result Payload)
}.

(** Where a call of [_make_request] stands. A coroutine runs without
    interruption from one [await] to the next, so a call is either not
    begun, suspended in [return await inflight] (line 68), suspended in
    [return await task] inside the [try] (line 73), or over. *)
Inductive CallState : Type :=
| NotStarted
| AwaitingShared (tid : nat)
| AwaitingOwn (tid : nat)
| Finished (r : Result Payload).

Record Call : Type := mkCall {
  call_method : string;
  call_endpoint : string;
  call_params : option Params;
  call_retries : option Z;
  call_state : CallState
}.

Definition set_state (c : Call) (s : CallState) : Call :=
  {| call_method := call_method c; call_endpoint := call_endpoint c;
     call_params := call_params c; call_retries := call_retries c;
     call_state := s |}.

Definition call_key (c : Call) : string :=
  _request_key (call_method c) (call_endpoint c) (call_params c).

(** The event loop: the class attribute [_inflight_requests] (request
    key to task), the tasks created so far (a task is named by its
    position) and the calls of [_make_request]. *)
Record World : Type := mkWorld {
  _inflight_requests : gmap string nat;
  tasks : list Task;
  calls : list Call
}.

(** What the scheduler runs next. [_make_request] is cut at its
    [await]s: [Enter] is lines 64-73 up to the [await], [Resume] is the
    rest (the [return] of line 68, or lines 73-75). The awaits inside
    [_make_request_internal] touch neither the registry nor the calls,
    so the run of a task is one step. *)
Inductive Step : Type :=
| Enter (c : nat)
    (* call [c] runs from its first line to its first [await] *)
| Complete (tid : nat) (net : Z -> NetOutcome Payload)
    (* task [tid] runs [_make_request_internal] to its end, on a
       network that answers as [net] *)
| Resume (c : nat).
    (* call [c] is woken by the task it awaits and runs to its end *)

(** [APIClient._make_request], one scheduler step at a time. *)

Definition step (w : World) (s : Step) : option World :=
  match s with
  | Enter c =>
      match calls w !! c with
      | Some call =>
          match call_state call with
          | NotStarted =>
              let request_key := call_key call in
              match _inflight_requests w !! request_key with
              | Some tid =>
                  (* return await inflight *)
                  Some {| _inflight_requests := _inflight_requests w;
                          tasks := tasks w;
                          calls := <[c := set_state call (AwaitingShared tid)]> (calls w) |}
              | None =>
                  (* task = create_task(...); register it; await task *)
                  let tid := length (tasks w) in
                  Some {| _inflight_requests :=
                            <[request_key := tid]> (_inflight_requests w);
                          tasks := tasks w ++ [mkTask (call_retries call) None];
                          calls := <[c := set_state call (AwaitingOwn tid)]> (calls w) |}
              end
          | _ => None
          end
      | None => None
      end
  | Complete tid net =>
      match tasks w !! tid with
      | Some t =>
          match task_done t with
          | None =>
              match _make_request_internal net (task_retries t) with
              | Some outcome =>
                  Some {| _inflight_requests := _inflight_requests w;
                          tasks := <[tid := mkTask (task_retries t) (Some outcome)]> (tasks w);
                          calls := calls w |}
              | None => None
              end
          | Some _ => None
          end
      | None => None
      end
  | Resume c =>
      match calls w !! c with
      | Some call =>
          match call_state call with
          | AwaitingShared tid =>
              match tasks w !! tid ≫= task_done with
              | Some outcome =>
                  Some {| _inflight_requests := _inflight_requests w;
                          tasks := tasks w;
                          calls := <[c := set_state call (Finished outcome.2)]> (calls w) |}
              | None => None
              end
          | AwaitingOwn tid =>
              match tasks w !! tid ≫= task_done with
              | Some outcome =>
                  (* finally: _inflight_requests.pop(request_key, None) *)
                  Some {| _inflight_requests :=
                            delete (call_key call) (_inflight_requests w);
                          tasks := tasks w;
                          calls := <[c := set_state call (Finished outcome.2)]> (calls w) |}
              | None => None
              end
          | _ => None
          end
      | None => None
      end
  end.

(** A schedule: the steps run one after the other ([None] when a step
    is not enabled where it stands). *)
Fixpoint run (w : World) (steps : list Step) : option World :=
  match steps with
  | [] => Some w
  | s :: steps' =>
      match step w s with
      | Some w' => run w' steps'
      | None => None
      end
  end.

(** Two calls, none begun, nothing in flight. *)
Definition two_calls (c1 c2 : Call) : World :=
  {| _inflight_requests := ∅; tasks := [];
     calls := [set_state c1 NotStarted; set_state c2 NotStarted] |}.

(** A call is in progress: begun and not over. *)
Definition in_progress (c : Call) : Prop :=
  match call_state c with
  | AwaitingShared _ | AwaitingOwn _ => True
  | _ => False
  end.

(** The network calls made so far: those of the tasks that have run. *)
Definition task_attempts (t : Task) : nat :=
  match task_done t with
  | Some outcome => network_attempts outcome.1
  | None => 0%nat
  end.

Definition network_calls (w : World) : nat :=
  sum_list (task_attempts <$> tasks w).

(** What a call returned or raised. *)
Definition call_result (w : World) (c : nat) : option (Result Payload) :=
  match calls w !! c with
  | Some call =>
      match call_state call with
      | Finished r => Some r
      | _ => None
      end
  | None => None
  end.

(** The invariants of two calls with the same request key [k]. *)

(** A task is launched with no outcome and gets the outcome of one run
    of [_make_request_internal]. *)
Definition task_sound (t : Task) : Prop :=
  forall outcome, task_done t = Some outcome ->
    exists net, _make_request_internal net (task_retries t) = Some outcome.

(** Call [c] hangs on task [0], which is [t]: it awaits it, or is over
    with the outcome of [t]. *)
Definition hangs_on (t : Task) (c : Call) : Prop :=
  match call_state c with
  | NotStarted => False
  | AwaitingShared tid | AwaitingOwn tid => tid = 0%nat
  | Finished r => exists tr, task_done t = Some (tr, r)
  end.

(** Both calls hang on the one task there is. *)
Definition coalesced (w : World) : Prop :=
  exists t ca cb,
    tasks w = [t] /\ calls w = [ca; cb] /\ task_sound t /\
    hangs_on t ca /\ hangs_on t cb.

(** One call has registered task [0] under [k] and awaits it; the other
    has not begun. *)
Definition one_entered (k : string) (w : World) : Prop :=
  exists t ca cb,
    tasks w = [t] /\ calls w = [ca; cb] /\ task_sound t /\
    _inflight_requests w !! k = Some 0%nat /\
    ((call_state ca = AwaitingOwn 0 /\ call_state cb = NotStarted) \/
     (call_state ca = NotStarted /\ call_state cb = AwaitingOwn 0)).

Definition none_entered (w : World) : Prop :=
  tasks w = [] /\ _inflight_requests w = ∅ /\
  Forall (fun c => call_state c = NotStarted) (calls w).

Definition is_finished (c : Call) : Prop :=
  exists r, call_state c = Finished r.

(** What holds of every world that a schedule reaches from
    [two_calls c1 c2] when both calls have the key [k]. *)
Definition reach_inv (k : string) (w : World) : Prop :=
  (exists ca cb, calls w = [ca; cb] /\ call_key ca = k /\ call_key cb = k) /\
  (none_entered w \/ one_entered k w \/ coalesced w \/
   Exists is_finished (calls w)).

End Coalescing.

Arguments Task : clear implicits.
Arguments CallState : clear implicits.
Arguments Call : clear implicits.
Arguments World : clear implicits.
Arguments Step : clear implicits.

End Inflight.

(** ** Any number of calls of [_make_request] *)

Module InflightView.
Import ApiClient Inflight.

Section Registry.

Context {Payload : Type}.

(** The calls [cs], none begun, with an empty registry. *)
Definition fresh_world (cs : list (Call Payload)) : World Payload :=
  {| _inflight_requests := ∅; tasks := [];
     calls := (fun c => set_state c NotStarted) <$> cs |}.

(** Every registered key belongs to a call that made the task and still
    awaits it. *)
Definition registry_owned (w : World Payload) : Prop :=
  forall key tid, _inflight_requests w !! key = Some tid ->
    exists (i : nat) call,
      calls w !! i = Some call /\ call_state call = AwaitingOwn tid /\
      call_key call = key.

(** What a call returned or raised is the outcome of a task. *)
Definition results_from_tasks (w : World Payload) : Prop :=
  forall (i : nat) call r,
    calls w !! i = Some call -> call_state call = Finished r ->
    exists (tid : nat) t tr,
      tasks w !! tid = Some t /\ task_done t = Some (tr, r).

Definition tasks_sound (w : World Payload) : Prop :=
  forall (tid : nat) t, tasks w !! tid = Some t -> task_sound t.

Definition registry_inv (w : World Payload) : Prop :=
  registry_owned w /\ results_from_tasks w /\ tasks_sound w.

End Registry.

End InflightView.

(** *** Sample networks *)

Module ApiSamples.
Import ApiClient.

(** Every call is answered [404 Not Found]. *)
Definition always_404 (attempt : Z) : NetOutcome string :=
  NetResponse (mkResponse 404 RetryAfterAbsent BodyContentTypeError).

(** Every call fails to connect. *)
Definition always_refused (attempt : Z) : NetOutcome string :=
  NetClientError "Cannot connect to host".

(** Every call runs into the total timeout of [HTTP_TIMEOUT] seconds:
    aiohttp raises [asyncio.TimeoutError], which is not an
    [aiohttp.ClientError]. *)
Definition always_timeout (attempt : Z) : NetOutcome string :=
  NetOtherError "TimeoutError".

(** A network call that fails with a transport or connection error: an
    [aiohttp.ClientError] of the transport, or a timeout. *)
Definition transport_failure (o : NetOutcome string) : Prop :=
  match o with
  | NetClientError _ => True
  | NetOtherError msg => msg = "TimeoutError"%string
  | NetResponse _ => False
  end.

(** The errors that say the retries are used up. *)
Definition exhausted_retries (e : Exn) : Prop :=
  match e with
  | RuntimeError_FailedAfter _ _ | RuntimeError_MaxRetries _ => True
  | _ => False
  end.

(** "For every request whose network call always fails with a
    transport/connection error, [_make_request_internal] with retry
    bound [maxRetries] terminates after exactly [maxRetries + 1]
    network attempts and surfaces an ExhaustedRetries-class terminal
    error to the caller." *)
Definition retry_exhaustion_as_stated : Prop :=
  forall (net : Z -> NetOutcome string) (retries : option Z),
    let maxRetries := effective_retries retries in
    0 <= maxRetries ->
    (forall a, transport_failure (net a)) ->
    exists tr e,
      _make_request_internal net retries = Some (tr, Raise e) /\
      network_attempts tr = Z.to_nat (maxRetries + 1) /\
      exhausted_retries e.

(** Two calls for the same faction reports, their parameters given in
    different orders; a network that answers [200] with a document; and
    a schedule in which both calls begin before the request is done. *)
Definition sample_call_1 : Inflight.Call string :=
  Inflight.mkCall "GET" "/faction/19"
    (Some [("selections", "reports"); ("from", "7")]%string) None
    Inflight.NotStarted.

Definition sample_call_2 : Inflight.Call string :=
  Inflight.mkCall "GET" "/faction/19"
    (Some [("from", "7"); ("selections", "reports")]%string) (Some 1)
    Inflight.NotStarted.

Definition answers_200 (attempt : Z) : NetOutcome string :=
  NetResponse (mkResponse 200 RetryAfterAbsent (BodyJson "{}"%string)).

Definition both_begin : list (Inflight.Step string) :=
  [Inflight.Enter 0; Inflight.Enter 1].

Definition then_finish : list (Inflight.Step string) :=
  [Inflight.Complete 0 answers_200; Inflight.Resume 1; Inflight.Resume 0].

(** The same two calls, begun together, on a network that is down. *)
Definition then_fail : list (Inflight.Step string) :=
  [Inflight.Complete 0 always_refused; Inflight.Resume 1; Inflight.Resume 0].

(** "For every two concurrent calls to [_make_request] with identical
    request keys, exactly one network call is issued; both callers
    receive the same resolved payload, or the same failure": counted
    when both calls are over. *)
Definition deduplication_as_stated : Prop :=
  forall (c1 c2 : Inflight.Call string)
         (pre post : list (Inflight.Step string))
         (wmid w : Inflight.World string),
    Inflight.call_key c1 = Inflight.call_key c2 ->
    Inflight.run (Inflight.two_calls c1 c2) pre = Some wmid ->
    Forall Inflight.in_progress (Inflight.calls wmid) ->
    Inflight.run wmid post = Some w ->
    Forall Inflight.is_finished (Inflight.calls w) ->
    Inflight.network_calls w = 1%nat /\
    Inflight.call_result w 0 = Inflight.call_result w 1.

(** The same two calls one after the other. *)
Definition one_after_the_other : list (Inflight.Step string) :=
  [Inflight.Enter 0; Inflight.Complete 0 answers_200; Inflight.Resume 0;
   Inflight.Enter 1; Inflight.Complete 1 always_refused; Inflight.Resume 1].

(** Subjects A, B, C where the request of B fails for good. *)
Definition sample_ids : list string := ["A"; "B"; "C"]%string.

Definition sample_responses : list (Result string) :=
  [Return "a"%string; Raise (RuntimeError_MaxRetries 3); Return "c"%string].

(** A server that throttles the first call (wait 2 s), fails the second
    with 503 and answers the third. *)
Definition flaky (attempt : Z) : NetOutcome string :=
  if attempt =? 0
  then NetResponse (mkResponse 429 (RetryAfterSeconds 2) BodyContentTypeError)
  else if attempt =? 1
  then NetResponse (mkResponse 503 RetryAfterAbsent BodyContentTypeError)
  else NetResponse (mkResponse 200 RetryAfterAbsent (BodyJson "{}"%string)).


(** What the request to [flaky] does. *)
Definition flaky_trace : list Event :=
  [EvAcquire 1; EvRequest 0; EvSleep 2;
   EvAcquire 1; EvRequest 1; EvSleep (3 # 2);
   EvAcquire 1; EvRequest 2].

(** A third call, for another endpoint, and a schedule of the three
    calls in which the first two overlap. *)
Definition sample_call_3 : Inflight.Call string :=
  Inflight.mkCall "GET" "/leaderboard" None None Inflight.NotStarted.

Definition three_calls_schedule : list (Inflight.Step string) :=
  [Inflight.Enter 0; Inflight.Enter 2; Inflight.Enter 1;
   Inflight.Complete 1 always_refused; Inflight.Resume 2;
   Inflight.Complete 0 answers_200; Inflight.Resume 1; Inflight.Resume 0].

End ApiSamples.

(** ** Using the limiter: what a sequence of [acquire] calls hands out *)

Module RateLimitUse.
Import RateLimit.





End RateLimitUse.

(** ** The cache as its users see it *)

Module StorageView.
Import Storage.

(** What the durable tier answers for [k] at clock reading [g]: the
    [SELECT] of [get_cached_response] and the test that follows. *)
Definition db_answer {Payload : Type} (json_loads : string -> Payload)
    (c : Cache Payload) (k : Key) (g : Q) : option Payload :=
  if session_only c then None
  else match api_cache c !! k with
       | Some row =>
           if fresh g (created_at row) (ttl_seconds row)
           then Some (json_loads (response_data row))
           else None
       | None => None
       end.

(** The cache object of the next process on the same database file:
    [__init__] starts with an empty [_memory_cache]. *)
Definition restart {Payload : Type} (c : Cache Payload) : Cache Payload :=
  init (session_only c) (api_cache c).

End StorageView.

(** ** The outcomes of one attempt, as the retry loop sorts them *)

Module RetryView.
Import ApiClient.

Section Outcomes.

Context {Payload : Type}.

(** A 429 whose wait the loop can read: the [Retry-After] seconds, or
    the default 60 when the header is absent. *)
Definition throttled (o : NetOutcome Payload) : option Z :=
  match o with
  | NetResponse resp =>
      if status resp =? 429 then
        match retry_after resp with
        | RetryAfterAbsent => Some 60
        | RetryAfterSeconds s => Some s
        | RetryAfterMalformed => None
        end
      else None
  | _ => None
  end.

(** An attempt that ends in the [except aiohttp.ClientError] clause, or
    in the 5xx branch that does the same: a transport failure, a status
    of 400 or more other than 429, or a body that is not JSON by its
    content type. *)
Definition client_error_of (o : NetOutcome Payload) : option ClientError :=
  match o with
  | NetClientError msg => Some (TransportError msg)
  | NetOtherError _ => None
  | NetResponse resp =>
      if status resp =? 429 then None
      else if 400 <=? status resp then Some (ClientResponseError (status resp))
      else match body resp with
           | BodyContentTypeError => Some (ContentTypeError (status resp))
           | _ => None
           end
  end.

(** An attempt that ends the request whatever the attempt number: a
    status below 400 with a JSON body (the data is returned), or an
    exception that is not an [aiohttp.ClientError] (re-raised). *)
Definition final_result (o : NetOutcome Payload) : option (Result Payload) :=
  match o with
  | NetOtherError msg => Some (Raise (OtherError msg))
  | NetClientError _ => None
  | NetResponse resp =>
      if status resp =? 429 then
        match retry_after resp with
        | RetryAfterMalformed => Some (Raise ValueError_RetryAfter)
        | _ => None
        end
      else if 400 <=? status resp then None
      else match body resp with
           | BodyJson data => Some (Return data)
           | BodyDecodeError => Some (Raise JSONDecodeError)
           | BodyContentTypeError => None
           end
  end.

(** An attempt after which the loop may go round again. *)
Definition retried (o : NetOutcome Payload) : Prop :=
  is_Some (throttled o) \/ is_Some (client_error_of o).

(** A response with a status of 500 or more: the branch whose warning
    formats the backoff, whether or not an attempt is left. *)
Definition server_error (o : NetOutcome Payload) : bool :=
  match o with
  | NetResponse resp => 500 <=? status resp
  | _ => false
  end.

(** The events of a retried attempt: the token, the call, and the
    sleep: the server's wait after a 429, else the backoff
    [HTTP_BACKOFF_FACTOR ** attempt] when an attempt is left. *)
Definition attempt_events (retries attempt : Z) (o : NetOutcome Payload)
  : list Event :=
  [EvAcquire 1; EvRequest attempt] ++
  match throttled o with
  | Some wait => [EvSleep (inject_Z wait)]
  | None =>
      if attempt <? retries
      then match backoff attempt with Some sleep => [sleep] | None => [] end
      else []
  end.



End Outcomes.

(** Tokens asked of the rate limiter in a trace. *)
Definition acquired (tr : list Event) : Z :=
  foldr (fun e acc => match e with EvAcquire n => n + acc | _ => acc end) 0 tr.

End RetryView.

(** ** The cached fetches of [thc_edge/api_client.py] *)

Module Fetch.
Import Storage ApiClient.

(** The clock readings of one fetch, in program order: the two of
    [get_cached_response], then the two of [cache_response]. *)
Record FetchClock : Type := mkFetchClock {
  get_mem : Q;
  get_db : Q;
  put_mem : Q;
  put_db : Q
}.

Section Fetches.

Context {Payload : Type}.
Variable json_dumps : Payload -> string.
Variable json_loads : string -> Payload.
(** The truth value of a payload, as [if cached:] tests it (an empty
    dictionary is falsy). *)
Variable truthy : Payload -> bool.

Abbreviation Outcome := (option (list Event * Result Payload)).

(** The rest of a fetch once the cache has not answered:
    [response = await self._make_request("GET", endpoint)], then
    [self.cache.cache_response(..., response, ttl)] if that returned; an
    exception leaves the function before the cache is written. With no
    other call for the same request key in flight, [_make_request] runs
    one task of [_make_request_internal] with the default [retries] and
    hands on what it returns or raises. *)
Definition request_and_store (c : Cache Payload) (key : Key)
    (ttl : option Z) (net : Z -> NetOutcome Payload) (clk : FetchClock)
  : Cache Payload * Outcome :=
  match _make_request_internal net None with
  | Some (tr, Return response) =>
      (cache_response json_dumps c key response ttl (put_mem clk) (put_db clk),
       Some (tr, Return response))
  | Some (tr, Raise e) => (c, Some (tr, Raise e))
  | None => (c, None)
  end.

(** The body the [fetch_*] methods share: check the cache, return what
    it holds if that is truthy, else ask the API and store the answer.
    The result is the cache afterwards with the events of the call and
    what it returns or raises. The fetch is taken on its own: no other
    coroutine works on the cache while it awaits the request. *)
Definition cached_fetch (c : Cache Payload) (key : Key) (ttl : option Z)
    (net : Z -> NetOutcome Payload) (clk : FetchClock)
  : Cache Payload * Outcome :=
  let (c1, cached) :=
    get_cached_response json_loads c key (get_mem clk) (get_db clk) in
  match cached with
  | Some data =>
      if truthy data then (c1, Some ([], Return data))
      else request_and_store c1 key ttl net clk
  | None => request_and_store c1 key ttl net clk
  end.

(** The API during one fetch: what the [n]-th call to an endpoint
    gets. *)
Abbreviation Server := (string -> Z -> NetOutcome Payload).

(** [APIClient.fetch_player_stats]. *)
Definition fetch_player_stats (c : Cache Payload) (server : Server)
    (player_id : string) (clk : FetchClock) : Cache Payload * Outcome :=
  let endpoint :=
    ("/user/" ++ player_id ++ "/personalstats,basic?cat=all&stat=")%string in
  cached_fetch c (player_id, "player_stats"%string) None (server endpoint) clk.

(** [APIClient.fetch_user_stats]. *)
Definition fetch_user_stats (c : Cache Payload) (server : Server)
    (clk : FetchClock) : Cache Payload * Outcome :=
  let endpoint := "/user/personalstats,basic?cat=all&stat="%string in
  cached_fetch c ("self"%string, "user_stats"%string) None (server endpoint) clk.

(** [APIClient.fetch_player_history]. *)
Definition fetch_player_history (c : Cache Payload) (server : Server)
    (player_id : string) (clk : FetchClock) : Cache Payload * Outcome :=
  let endpoint := ("/user/" ++ player_id ++ "/history")%string in
  cached_fetch c (player_id, "player_history"%string) None (server endpoint) clk.

(** [APIClient.fetch_leaderboard]. *)
Definition fetch_leaderboard (c : Cache Payload) (server : Server)
    (clk : FetchClock) : Cache Payload * Outcome :=
  let endpoint := "/leaderboard"%string in
  cached_fetch c ("global"%string, "leaderboard"%string) None (server endpoint) clk.

(** [APIClient.fetch_faction_members]. *)
Definition fetch_faction_members (c : Cache Payload) (server : Server)
    (faction_id : string) (clk : FetchClock) : Cache Payload * Outcome :=
  let endpoint :=
    ("/faction/" ++ faction_id ++ "/members?striptags=true")%string in
  cached_fetch c (faction_id, "faction_members"%string) (Some 86400)
    (server endpoint) clk.

(** [APIClient.fetch_faction_attacks]; [pretty] is [str] on integers. *)
Definition fetch_faction_attacks (c : Cache Payload) (server : Server)
    (limit : Z) (clk : FetchClock) : Cache Payload * Outcome :=
  let endpoint :=
    ("/faction/attacks?limit=" ++ pretty limit ++ "&sort=DESC")%string in
  cached_fetch c ("faction"%string, "attacks"%string) (Some 300)
    (server endpoint) clk.

(** [APIClient.fetch_faction_reports]. *)
Definition fetch_faction_reports (c : Cache Payload) (server : Server)
    (limit offset : Z) (clk : FetchClock) : Cache Payload * Outcome :=
  let endpoint :=
    ("/faction/reports?cat=stats&limit=" ++ pretty limit ++ "&offset="
       ++ pretty offset ++ "&sort=DESC")%string in
  let cache_key := ("reports_" ++ pretty limit ++ "_" ++ pretty offset)%string in
  cached_fetch c ("faction"%string, cache_key) (Some 300) (server endpoint) clk.

(** [APIClient.fetch_user_bars]. *)
Definition fetch_user_bars (c : Cache Payload) (server : Server)
    (clk : FetchClock) : Cache Payload * Outcome :=
  let endpoint := "/user/bars"%string in
  cached_fetch c ("self"%string, "bars"%string) (Some 30) (server endpoint) clk.

End Fetches.

End Fetch.

(** The character [a] does not occur in [s]. *)
Fixpoint free_of (a : Ascii.ascii) (s : string) : Prop :=
  match s with
  | EmptyString => True
  | String b s' => b <> a /\ free_of a s'
  end.

(** *** Sample fetches *)

Module FetchSamples.
Import Storage ApiClient Fetch.

(** Payloads as their JSON text: the empty object is the falsy one. *)
Definition json_truthy (data : string) : bool :=
  negb (String.eqb data "{}").

(** An API that serves the attack log at the length asked for. *)
Definition attacks_server (endpoint : string) (attempt : Z) : NetOutcome string :=
  if String.eqb endpoint "/faction/attacks?limit=10&sort=DESC"
  then NetResponse (mkResponse 200 RetryAfterAbsent (BodyJson "{ten attacks}"%string))
  else NetResponse (mkResponse 200 RetryAfterAbsent (BodyJson "{more attacks}"%string)).

(** An API that is down. *)
Definition server_down (endpoint : string) (attempt : Z) : NetOutcome string :=
  NetClientError "connection refused".

(** An API that answers every request with an empty object. *)
Definition empty_server (endpoint : string) (attempt : Z) : NetOutcome string :=
  NetResponse (mkResponse 200 RetryAfterAbsent (BodyJson "{}"%string)).

(** A fetch at time [t] (all four clock readings). *)
Definition at_time (t : Q) : FetchClock := mkFetchClock t t t t.

(** The first fetch of a session: ten attacks, asked at time 0. *)
Definition ten_attacks_fetched : Cache string * option (list Event * Result string) :=
  fetch_faction_attacks id id json_truthy StorageSamples.empty_session_cache
    attacks_server 10 (at_time 0).

(** A fetch of the user's bars at time 0 from an API that answers with
    an empty object. *)
Definition empty_bars_fetched : Cache string * option (list Event * Result string) :=
  fetch_user_bars id id json_truthy StorageSamples.empty_session_cache
    empty_server (at_time 0).

End FetchSamples.

(** ** [discord_bot/key_store.py] *)

Module KeyStore.

(** A value of [_store]: the tuple [(api_key, key_type, expires_at)]. *)
Record Entry : Type := mkEntry {
  api_key : string;
  key_type : string;
  expires_at : Q
}.

Record ApiKeyStore : Type := mkApiKeyStore {
  _ttl_seconds : Z;
  _store : gmap Z Entry
}.

(** [ApiKeyStore.__init__]. *)
Definition init (ttl_seconds : Z) : ApiKeyStore :=
  {| _ttl_seconds := ttl_seconds; _store := ∅ |}.

Definition set_store (s : ApiKeyStore) (m : gmap Z Entry) : ApiKeyStore :=
  {| _ttl_seconds := _ttl_seconds s; _store := m |}.

(** The lock is only ever held between two [await]s, so no coroutine
    finds it taken: each method body runs as one step. *)

(** [ApiKeyStore.set_key]; [now] is the clock reading of line 17. The
    second component holds the arguments of the [_expire_later] task it
    creates. *)
Definition set_key (s : ApiKeyStore) (user_id : Z) (api_key key_type : string)
    (now : Q) : ApiKeyStore * (Z * Q) :=
  let expires_at := (now + inject_Z (_ttl_seconds s))%Q in
  (set_store s (<[user_id := mkEntry api_key key_type expires_at]> (_store s)),
   (user_id, expires_at)).

(** [ApiKeyStore.get_key]; [now] is the clock reading of line 28. *)
Definition get_key (s : ApiKeyStore) (user_id : Z) (now : Q)
  : ApiKeyStore * option (string * string) :=
  match _store s !! user_id with
  | None => (s, None)
  | Some entry =>
      if Qle_bool (expires_at entry) now
      then (set_store s (delete user_id (_store s)), None)
      else (s, Some (api_key entry, key_type entry))
  end.

(** [ApiKeyStore.clear_key]. *)
Definition clear_key (s : ApiKeyStore) (user_id : Z) : ApiKeyStore :=
  set_store s (delete user_id (_store s)).

(** [ApiKeyStore._expire_later], first part: the delay it sleeps for;
    [now] is the clock reading of line 38. *)
Definition _expire_later_delay (expires_at now : Q) : Q :=
  Qmax 0 (expires_at - now).

(** [ApiKeyStore._expire_later], after the sleep; [now] is the clock
    reading of line 42. The entry is tested, not the [expires_at] the
    task was created with. *)
Definition _expire_later_wake (s : ApiKeyStore) (user_id : Z) (now : Q)
  : ApiKeyStore :=
  match _store s !! user_id with
  | Some entry =>
      if Qle_bool (expires_at entry) now
      then set_store s (delete user_id (_store s))
      else s
  | None => s
  end.

(** What can happen to a store, one step at a time. *)
Inductive Op : Type :=
| SetKey (user_id : Z) (api_key key_type : string) (now : Q)
| GetKey (user_id : Z) (now : Q)
| ClearKey (user_id : Z)
| TimerWakes (user_id : Z) (now : Q).
    (* an [_expire_later] task for [user_id] comes out of its sleep *)

Definition apply (s : ApiKeyStore) (o : Op) : ApiKeyStore :=
  match o with
  | SetKey user_id api_key key_type now =>
      (set_key s user_id api_key key_type now).1
  | GetKey user_id now => (get_key s user_id now).1
  | ClearKey user_id => clear_key s user_id
  | TimerWakes user_id now => _expire_later_wake s user_id now
  end.

Definition run_ops (s : ApiKeyStore) (ops : list Op) : ApiKeyStore :=
  foldl apply s ops.

(** The clock reading of a step, if it takes one. *)
Definition op_time (o : Op) : option Q :=
  match o with
  | SetKey _ _ _ now | GetKey _ now | TimerWakes _ now => Some now
  | ClearKey _ => None
  end.

(** The clock does not go back: the readings of [ops], then [now], are
    in order from [t] on. *)
Fixpoint in_order (t : Q) (ops : list Op) (now : Q) : Prop :=
  match ops with
  | [] => (t <= now)%Q
  | o :: ops' =>
      match op_time o with
      | Some t' => (t <= t')%Q /\ in_order t' ops' now
      | None => in_order t ops' now
      end
  end.

(** What the callers did, leaving expiry out: for each user the key of
    the last [set_key] that no [clear_key] followed, with the time it
    was set at. *)
Definition keys_set (m : gmap Z (string * string * Q)) (o : Op)
  : gmap Z (string * string * Q) :=
  match o with
  | SetKey user_id api_key key_type now =>
      <[user_id := (api_key, key_type, now)]> m
  | ClearKey user_id => delete user_id m
  | GetKey _ _ | TimerWakes _ _ => m
  end.

Definition last_set (ops : list Op) : gmap Z (string * string * Q) :=
  foldl keys_set ∅ ops.

(** The step is a [set_key] for [user_id]. *)
Definition sets_key (user_id : Z) (o : Op) : bool :=
  match o with
  | SetKey u _ _ _ => bool_decide (u = user_id)
  | _ => false
  end.

(** The store [s] holds what the callers set ([m]), less some of the
    keys that have expired by the time [t]. *)
Definition tracks (s : ApiKeyStore) (m : gmap Z (string * string * Q)) (t : Q)
  : Prop :=
  forall user_id,
    match m !! user_id with
    | Some (api_key, key_type, set_at) =>
        let expires_at := (set_at + inject_Z (_ttl_seconds s))%Q in
        _store s !! user_id = Some (mkEntry api_key key_type expires_at) \/
        (_store s !! user_id = None /\ (expires_at <= t)%Q)
    | None => _store s !! user_id = None
    end.

End KeyStore.

Module KeyStoreSamples.
Import KeyStore.

(** A user sets a key at time 0, reads it and renews it at 600;
    another user sets and clears a key; the timer of the first key
    wakes at 900 (the store has a TTL of 900 seconds). *)
Definition one_session : list Op :=
  [SetKey 7 "k-limited" "limited" 0; GetKey 7 10;
   SetKey 8 "k-full" "full" 20; ClearKey 8;
   SetKey 7 "k-renewed" "limited" 600; TimerWakes 7 900].

(** What other users do while the key of user 7 ages. *)
Definition other_users : list Op :=
  [SetKey 8 "k-full" "full" 20; GetKey 7 30; GetKey 8 40; ClearKey 8].

End KeyStoreSamples.

(** ** [discord_bot/bot.py] *)

Module Bot.

Section Parse.

(** A Python [str] is a sequence of code points. [comma] is [","];
    [isspace] and [isdigit] are the character classes that [str.strip]
    and [str.isdigit] go by. *)
Context {Char : Type} `{EqDecision Char}.
Variable comma : Char.
Variable isspace : Char -> bool.
Variable isdigit : Char -> bool.

(** [s.split(",")]: the pieces between the commas, empty ones
    included; there is always one piece. *)
Fixpoint str_split (s : list Char) : list (list Char) :=
  match s with
  | [] => [[]]
  | a :: s' =>
      if decide (a = comma) then [] :: str_split s'
      else match str_split s' with
           | piece :: pieces => (a :: piece) :: pieces
           | [] => [[a]]
           end
  end.

(** [s.lstrip()], [s.rstrip()] and [s.strip()]. *)
Fixpoint str_lstrip (s : list Char) : list Char :=
  match s with
  | a :: s' => if isspace a then str_lstrip s' else s
  | [] => []
  end.

Definition str_rstrip (s : list Char) : list Char :=
  reverse (str_lstrip (reverse s)).

Definition str_strip (s : list Char) : list Char :=
  str_rstrip (str_lstrip s).

(** [s.isdigit()]: every character is a digit and there is one. *)
Definition str_isdigit (s : list Char) : bool :=
  match s with
  | [] => false
  | _ => forallb isdigit s
  end.

(** What [parse_member_ids] returns or raises: the list of IDs,
    [ValueError("No valid IDs provided.")], or
    [ValueError(f"Invalid member ID: {member_id}")]. *)
Inductive ParseResult : Type :=
| MemberIds (member_ids : list (list Char))
| ValueError_NoValidIds
| ValueError_InvalidMemberId (member_id : list Char).

(** [parse_member_ids]. *)
Definition parse_member_ids (raw_ids : list Char) : ParseResult :=
  let member_ids :=
    str_strip <$> filter (fun mid => str_strip mid <> []) (str_split raw_ids) in
  match member_ids with
  | [] => ValueError_NoValidIds
  | _ =>
      match List.find (fun member_id => negb (str_isdigit member_id)) member_ids with
      | Some member_id => ValueError_InvalidMemberId member_id
      | None => MemberIds member_ids
      end
  end.

(** [",".join(pieces)]. *)
Fixpoint str_join (pieces : list (list Char)) : list Char :=
  match pieces with
  | [] => []
  | [piece] => piece
  | piece :: pieces' => piece ++ comma :: str_join pieces'
  end.

(** What a user types between two commas: an ID, or nothing, with
    blanks around it. *)
Record Item : Type := mkItem {
  blanks_before : list Char;
  item_id : list Char;
  blanks_after : list Char
}.

Definition typed (it : Item) : list Char :=
  blanks_before it ++ item_id it ++ blanks_after it.

Definition item_ok (it : Item) : Prop :=
  forallb isspace (blanks_before it) = true /\
  forallb isspace (blanks_after it) = true /\
  (item_id it = [] \/ str_isdigit (item_id it) = true).

End Parse.

Arguments ParseResult : clear implicits.
Arguments Item : clear implicits.

End Bot.

Module BotSamples.
Import Bot.
Import Stdlib.Strings.Ascii.

(** Code points below 256 as [ascii]: the white space and the digits of
    Python among them. *)
Definition isspace (a : ascii) : bool :=
  let n := N_of_ascii a in
  ((9 <=? n) && (n <=? 13) || (28 <=? n) && (n <=? 32)
   || (n =? 133) || (n =? 160))%N.

Definition isdigit (a : ascii) : bool :=
  let n := N_of_ascii a in
  ((48 <=? n) && (n <=? 57) || (n =? 178) || (n =? 179) || (n =? 185))%N.

Definition chars (s : string) : list ascii := String.list_ascii_of_string s.

(** The placeholder of the input field, with a comma too many. *)
Definition placeholder : list (Item ascii) :=
  [mkItem [] (chars "123") [];
   mkItem (chars " ") (chars "456") [];
   mkItem (chars " ") (chars "789") (chars " ");
   mkItem (chars " ") [] []].

End BotSamples.

(* ================================================================== *)
(** * Properties *)
(* ================================================================== *)

Module RateLimitSpec.
Import RateLimit.

Lemma refill_capacity b now : capacity (refill b now) = capacity b.
Proof. reflexivity. Qed.

Lemma refill_last b now : last_refill (refill b now) = now.
Proof. reflexivity. Qed.

Lemma refill_in_range b now :
  (0 <= refill_rate b)%Q -> (last_refill b <= now)%Q ->
  tokens_in_range b -> tokens_in_range (refill b now).
Proof.
  intros Hr Hn [Hlo Hhi]. unfold tokens_in_range, refill; simpl.
  assert (Hcap : (0 <= inject_Z (capacity b))%Q) by lra.
  assert (Hel : (0 <= (now - last_refill b) * refill_rate b)%Q).
  { apply Qmult_le_0_compat; lra. }
  split.
  - apply Q.min_glb; lra.
  - apply Q.le_min_l.
Qed.

Lemma step_fields b now n :
  capacity (fst (refill_and_debit b now n)) = capacity b /\
  refill_rate (fst (refill_and_debit b now n)) = refill_rate b /\
  last_refill (fst (refill_and_debit b now n)) = now.
Proof.
  unfold refill_and_debit.
  destruct (Qle_bool _ _); simpl; auto.
Qed.

Lemma step_in_range b now n :
  (0 <= refill_rate b)%Q -> (last_refill b <= now)%Q -> 0 <= n ->
  tokens_in_range b -> tokens_in_range (fst (refill_and_debit b now n)).
Proof.
  intros Hr Hn Hz Hb.
  pose proof (refill_in_range b now Hr Hn Hb) as [Hlo Hhi].
  unfold refill_and_debit.
  set (b1 := refill b now) in *. clearbody b1.
  destruct (Qle_bool (inject_Z n) (tokens b1)) eqn:E; cbn [fst].
  - apply Qle_bool_iff in E.
    assert (Hn0 : (0 <= inject_Z n)%Q).
    { change 0%Q with (inject_Z 0). rewrite <- Zle_Qle. exact Hz. }
    unfold tokens_in_range; cbn [tokens capacity].
    split; lra.
  - split; assumption.
Qed.

Lemma last_cons_default {A} (x : A) (l : list A) (d d' : A) :
  List.last (x :: l) d = List.last (x :: l) d'.
Proof.
  revert x. induction l as [| y l IH]; intros x; [reflexivity |].
  change (List.last (y :: l) d = List.last (y :: l) d'). apply IH.
Qed.

Lemma init_in_range cap rate now :
  0 <= cap -> tokens_in_range (init cap rate now).
Proof.
  intros Hc. unfold tokens_in_range, init; cbn [tokens capacity].
  split; [| apply Qle_refl].
  change 0%Q with (inject_Z 0). rewrite <- Zle_Qle. exact Hc.
Qed.

(** The polling loop keeps the invariant at every step, and leaves a
    bucket with the same refill rate. *)
Lemma acquire_loop_in_range n timeout start clock : forall b,
  (0 <= refill_rate b)%Q -> 0 <= n ->
  tokens_in_range b -> clock_ok (last_refill b) clock ->
  let bs := fst (acquire_loop b n timeout start clock) in
  Forall tokens_in_range bs /\
  tokens_in_range (List.last bs b) /\
  refill_rate (List.last bs b) = refill_rate b.
Proof.
  induction clock as [| p clock IH]; intros b Hr Hn Hb Hc.
  - cbn. repeat split; try constructor; apply Hb.
  - destruct Hc as [Hp Hc].
    pose proof (step_in_range b (poll_now p) n Hr Hp Hn Hb) as Hb'.
    pose proof (step_fields b (poll_now p) n) as (_ & Hrate & Hlast).
    cbn [acquire_loop].
    destruct (refill_and_debit b (poll_now p) n) as [b' ok] eqn:E.
    cbn [fst] in Hb', Hrate, Hlast.
    assert (Hrec : let bs := fst (acquire_loop b' n timeout start clock) in
              Forall tokens_in_range (b' :: bs) /\
              tokens_in_range (List.last (b' :: bs) b) /\
              refill_rate (List.last (b' :: bs) b) = refill_rate b).
    { specialize (IH b'). rewrite Hrate, Hlast in IH.
      destruct (IH Hr Hn Hb' Hc) as (H1 & H2 & H3).
      cbn zeta. split; [constructor; assumption |].
      destruct (fst (acquire_loop b' n timeout start clock)) as [| b0 bs0].
      - cbn. auto.
      - change (List.last (b' :: b0 :: bs0) b) with (List.last (b0 :: bs0) b).
        rewrite (last_cons_default b0 bs0 b b').
        auto. }
    assert (Hone : Forall tokens_in_range [b'] /\
              tokens_in_range (List.last [b'] b) /\
              refill_rate (List.last [b'] b) = refill_rate b).
    { cbn. repeat split; auto; apply Hb'. }
    destruct ok; [exact Hone |].
    destruct timeout as [t |].
    + destruct (Qle_bool (poll_check p - start) t); [| exact Hone].
      destruct (acquire_loop b' n (Some t) start clock) as [bs r]. exact Hrec.
    + destruct (acquire_loop b' n None start clock) as [bs r]. exact Hrec.
Qed.

Lemma acquire_fst b n timeout start clock :
  fst (acquire b n timeout start clock)
  = List.last (fst (acquire_loop b n timeout start clock)) b.
Proof.
  unfold acquire. destruct (acquire_loop b n timeout start clock); reflexivity.
Qed.

Lemma run_calls_in_range calls : forall b,
  (0 <= refill_rate b)%Q -> tokens_in_range b -> calls_ok b calls ->
  Forall tokens_in_range (run_calls b calls).
Proof.
  induction calls as [| c calls IH]; intros b Hr Hb Hok; cbn [run_calls].
  - constructor.
  - destruct Hok as (Hn & Hc & Hrest). rewrite acquire_fst in Hrest.
    destruct (acquire_loop_in_range (call_tokens c) (call_timeout c)
                (call_start c) (call_clock c) b Hr Hn Hb Hc) as (H1 & H2 & H3).
    apply Forall_app. split; [exact H1 |].
    apply IH; [rewrite H3; exact Hr | exact H2 | exact Hrest].
Qed.

(** C3, amended. Token count invariant: a bucket made by [__init__]
    with a non-negative refill rate and a capacity between 0 and
    [2^53] (so that [float(capacity)] is the capacity) satisfies
    [0 <= tokens <= capacity], and so does the bucket after every
    refill-and-debit step of every sequence of [acquire] calls in which
    no call asks for a negative number of tokens and the clock readings
    do not go back, whatever time elapses between the steps. Neither
    condition is enforced by the code, and the invariant fails without
    either ([tokens_invariant_counterexample]). *)
Theorem tokens_invariant (cap : Z) (rate t0 : Q) (calls : list Call) :
  0 <= cap <= 2 ^ 53 -> (0 <= rate)%Q -> calls_ok (init cap rate t0) calls ->
  tokens_in_range (init cap rate t0) /\
  Forall tokens_in_range (run_calls (init cap rate t0) calls).
Proof.
  intros [Hc _] Hr Hok. split.
  - apply init_in_range, Hc.
  - apply run_calls_in_range; [exact Hr | apply init_in_range, Hc | exact Hok].
Qed.

Lemma tokens_invariant_witness :
  tokens_in_range (init 2 1 0) /\
  Forall tokens_in_range (run_calls (init 2 1 0) sample_calls).
Proof.
  apply tokens_invariant.
  - lia.
  - discriminate.
  - cbn. repeat split; try lia; discriminate.
Defined.

(** The claim as the specification words it fails on [acquire(-1)]:
    the sample bucket of capacity 2 then holds 3 tokens. *)
Lemma tokens_invariant_counterexample : ~ tokens_invariant_as_stated.
Proof.
  intros H.
  specialize (H 2 1%Q 0%Q negative_request).
  assert (Hall : Forall tokens_in_range (run_calls (init 2 1 0) negative_request))
    by (apply H; [lia | discriminate]).
  apply Forall_inv in Hall.
  destruct Hall as [_ Hle]. vm_compute in Hle. apply Hle. reflexivity.
Qed.

Example negative_request_overfills :
  tokens <$> run_calls sample_bucket negative_request = [3%Q].
Proof. reflexivity. Qed.

(** It fails as well when the wall clock is set back: the refill then
    takes tokens away. *)
Example clock_set_back_goes_negative :
  tokens <$> run_calls sample_bucket clock_set_back = [(-3)%Q].
Proof. reflexivity. Qed.



End RateLimitSpec.

Module StorageSpec.
Import Storage.

Section CacheFacts.

Context {Payload : Type}.
Variable json_dumps : Payload -> string.
Variable json_loads : string -> Payload.

Lemma fresh_true now created ttl :
  fresh now created ttl = true <-> (now - created <= inject_Z ttl)%Q.
Proof. apply Qle_bool_iff. Qed.

Lemma fresh_false now created ttl :
  fresh now created ttl = false <-> (inject_Z ttl < now - created)%Q.
Proof.
  unfold fresh. split.
  - intros E. apply Qnot_le_lt. intros H. apply Qle_bool_iff in H. congruence.
  - intros H. destruct (Qle_bool _ _) eqn:E; [| reflexivity].
    apply Qle_bool_iff in E. exfalso. apply (Qlt_not_le _ _ H E).
Qed.

Lemma put_session_only c k data ttl tm td :
  session_only (cache_response json_dumps c k data ttl tm td) = session_only c.
Proof.
  unfold cache_response, set_memory, db_exec. cbn.
  destruct (session_only c); reflexivity.
Qed.

Lemma put_memory c k data ttl tm td :
  _memory_cache (cache_response json_dumps c k data ttl tm td)
  = <[k := mkMemEntry data tm (Py.or_default ttl Config.CACHE_TTL_SECONDS)]>
      (_memory_cache c).
Proof.
  unfold cache_response, set_memory, db_exec. cbn.
  destruct (session_only c); reflexivity.
Qed.

Lemma put_table c k data ttl tm td :
  session_only c = false ->
  api_cache (cache_response json_dumps c k data ttl tm td)
  = <[k := mkDbRow (json_dumps data) td
             (Py.or_default ttl Config.CACHE_TTL_SECONDS)]> (api_cache c).
Proof.
  intros E. unfold cache_response, set_memory, db_exec. cbn.
  rewrite E. reflexivity.
Qed.

(** A fresh memory entry is returned as it is and nothing changes. *)
Lemma get_memory_hit c k e g1 g2 :
  _memory_cache c !! k = Some e ->
  fresh g1 (mem_created_at e) (mem_ttl e) = true ->
  get_cached_response json_loads c k g1 g2 = (c, Some (mem_data e)).
Proof. intros Hk Hf. unfold get_cached_response. rewrite Hk, Hf. reflexivity. Qed.

(** An expired memory entry over an expired (or absent) row is a miss. *)
Lemma get_expired_miss c k e g1 g2 :
  _memory_cache c !! k = Some e ->
  fresh g1 (mem_created_at e) (mem_ttl e) = false ->
  (session_only c = false ->
   forall row, api_cache c !! k = Some row ->
     fresh g2 (created_at row) (ttl_seconds row) = false) ->
  (get_cached_response json_loads c k g1 g2).2 = None.
Proof.
  intros Hk Hf Hrow. unfold get_cached_response. rewrite Hk, Hf.
  unfold delete_cached_response, set_memory, db_exec. cbn.
  destruct (session_only c) eqn:Es; [reflexivity |].
  destruct (api_cache c !! k) as [row |] eqn:Er; [| reflexivity].
  rewrite (Hrow eq_refl row eq_refl). reflexivity.
Qed.

Lemma or_default_nonzero v d : v <> 0 -> Py.or_default (Some v) d = v.
Proof.
  intros Hv. unfold Py.or_default.
  destruct (Z.eqb_spec v 0); [contradiction | reflexivity].
Qed.

(** C4, amended. An entry stored by [cache_response] with TTL argument
    [ttl_arg] carries the TTL [T = ttl_arg or CACHE_TTL_SECONDS] (so
    [T] is the argument unless that is [0] or [None], which store the
    default). [get_cached_response] returns the stored payload itself,
    and leaves the cache as it is, whenever at most [T] seconds have
    elapsed since the storing call read the clock; it misses once more
    than [T] seconds have elapsed since the storing call ended. *)
Theorem cache_ttl (c : Cache Payload) (k : Key) (data : Payload)
    (ttl_arg : option Z) (tm td : Q) :
  let T := Py.or_default ttl_arg Config.CACHE_TTL_SECONDS in
  let c' := cache_response json_dumps c k data ttl_arg tm td in
  (forall T', ttl_arg = Some T' -> T' <> 0 -> T = T') /\
  (forall g1 g2, (g1 - tm <= inject_Z T)%Q ->
     get_cached_response json_loads c' k g1 g2 = (c', Some data)) /\
  (forall g1 g2, (tm <= td)%Q -> (g1 <= g2)%Q -> (inject_Z T < g1 - td)%Q ->
     (get_cached_response json_loads c' k g1 g2).2 = None).
Proof.
  cbn zeta. split; [| split].
  - intros T' -> HT'. apply or_default_nonzero, HT'.
  - intros g1 g2 Hle.
    eapply (get_memory_hit _ k (mkMemEntry data tm _)).
    + rewrite put_memory. apply lookup_insert_eq.
    + apply fresh_true. exact Hle.
  - intros g1 g2 Htm Hg Hlt.
    eapply (get_expired_miss _ k (mkMemEntry data tm _)).
    + rewrite put_memory. apply lookup_insert_eq.
    + apply fresh_false. cbn [mem_created_at mem_ttl]. lra.
    + rewrite put_session_only. intros Es row Hrow.
      rewrite (put_table _ _ _ _ _ _ Es), lookup_insert_eq in Hrow.
      injection Hrow as <-. apply fresh_false. cbn [created_at ttl_seconds]. lra.
Qed.

(** C7. With [session_only] set, [get_cached_response],
    [cache_response], [delete_cached_response] and [clear_expired]
    leave the table as it is and execute no statement against it, and
    what they return and do to the memory tier does not depend on the
    table: a cache with the same memory tier and any other table gives
    the same answers. *)
Theorem session_only_skips_durable_tier (c : Cache Payload) (k : Key)
    (data : Payload) (ttl_arg : option Z) (g1 g2 now : Q) :
  session_only c = true ->
  (durable_untouched c (get_cached_response json_loads c k g1 g2).1 /\
   durable_untouched c (cache_response json_dumps c k data ttl_arg g1 g2) /\
   durable_untouched c (delete_cached_response c k) /\
   durable_untouched c (clear_expired c now)) /\
  (forall c2 : Cache Payload,
     session_only c2 = true -> _memory_cache c2 = _memory_cache c ->
     (get_cached_response json_loads c2 k g1 g2).2
       = (get_cached_response json_loads c k g1 g2).2 /\
     _memory_cache (get_cached_response json_loads c2 k g1 g2).1
       = _memory_cache (get_cached_response json_loads c k g1 g2).1 /\
     _memory_cache (cache_response json_dumps c2 k data ttl_arg g1 g2)
       = _memory_cache (cache_response json_dumps c k data ttl_arg g1 g2) /\
     _memory_cache (delete_cached_response c2 k)
       = _memory_cache (delete_cached_response c k) /\
     _memory_cache (clear_expired c2 now) = _memory_cache (clear_expired c now)).
Proof.
  intros Es. split.
  - unfold durable_untouched, get_cached_response, cache_response,
      delete_cached_response, clear_expired, set_memory, db_exec.
    cbn. rewrite Es.
    destruct (_memory_cache c !! k) as [e |];
      [destruct (fresh g1 (mem_created_at e) (mem_ttl e)) |];
      cbn; rewrite ?Es; cbn; auto 10.
  - intros c2 Es2 Hm.
    unfold get_cached_response, cache_response,
      delete_cached_response, clear_expired, set_memory, db_exec.
    cbn. rewrite Es, Es2, Hm.
    destruct (_memory_cache c !! k) as [e |];
      [destruct (fresh g1 (mem_created_at e) (mem_ttl e)) |];
      cbn; rewrite ?Es, ?Es2; cbn; rewrite ?Hm; auto 10.
Qed.

End CacheFacts.

Import StorageSamples.

Lemma cache_ttl_witness :
  get_cached_response id
    (cache_response id empty_durable_cache sample_key "{}"%string (Some 300) 0 (1 # 10))
    sample_key 299 299
  = (cache_response id empty_durable_cache sample_key "{}"%string (Some 300) 0 (1 # 10),
     Some "{}"%string)
  /\ (get_cached_response id
        (cache_response id empty_durable_cache sample_key "{}"%string (Some 300) 0 (1 # 10))
        sample_key 301 301).2 = None.
Proof.
  pose proof (cache_ttl id id empty_durable_cache sample_key "{}"%string
                (Some 300) 0 (1 # 10)) as (_ & Hhit & Hmiss).
  split.
  - apply Hhit. vm_compute. discriminate.
  - apply Hmiss; vm_compute; congruence.
Defined.

(** C4 as stated fails for [T = 0]: [cache_response] replaces a TTL of
    [0] by [CACHE_TTL_SECONDS = 3600], so the entry is still served one
    second later, although [1 >= 0 + eps] for [eps = 1]. *)
Lemma ttl_zero_counterexample : ~ ttl_property_as_stated.
Proof.
  intros H.
  destruct (H empty_session_cache sample_key "{}"%string 0 0%Q 1%Q 1%Q)
    as [_ Hmiss]; [reflexivity | discriminate |].
  assert (Hle : (inject_Z 0 + 1 <= 1)%Q) by discriminate.
  specialize (Hmiss Hle). vm_compute in Hmiss. discriminate.
Qed.

Lemma session_only_skips_durable_tier_witness :
  durable_untouched empty_session_cache
    (cache_response id empty_session_cache sample_key "{}"%string None 0 0).
Proof.
  apply (session_only_skips_durable_tier id id empty_session_cache sample_key
           "{}"%string None 0 0 0).
  reflexivity.
Defined.

End StorageSpec.

Module RetrySpec.
Import ApiClient.

Section Loop.

Context {Payload : Type}.
Variable net : Z -> NetOutcome Payload.

Lemma network_attempts_app tr tr' :
  network_attempts (tr ++ tr') = (network_attempts tr + network_attempts tr')%nat.
Proof. unfold network_attempts. rewrite List.filter_app, length_app. reflexivity. Qed.

(** The loop returns or raises: with more fuel than attempts left, it
    never runs out. *)
Lemma retry_loop_total fuel : forall retries attempt tr,
  (Z.to_nat (retries + 1 - attempt) < fuel)%nat ->
  is_Some (retry_loop net fuel retries attempt tr).
Proof.
  induction fuel as [| fuel IH]; intros retries attempt tr Hf; [lia |].
  cbn [retry_loop].
  destruct (Z.leb_spec attempt retries) as [Hle | Hgt]; [| eexists; reflexivity].
  repeat case_match; first [eexists; reflexivity | apply IH; lia].
Qed.

(** [_make_request_internal] always returns or raises. *)
Lemma _make_request_internal_total retries :
  is_Some (_make_request_internal net retries).
Proof.
  unfold _make_request_internal, loop_fuel. apply retry_loop_total. lia.
Qed.

(** A first answer below 400 with a JSON body ends the request after
    one network call. *)
Lemma first_answer_success retries resp data :
  0 <= effective_retries retries ->
  net 0 = NetResponse resp -> status resp < 400 -> body resp = BodyJson data ->
  _make_request_internal net retries
  = Some ([EvAcquire 1; EvRequest 0], Return data).
Proof.
  intros Hr Hnet Hs Hb. unfold _make_request_internal, loop_fuel.
  cbn [retry_loop]. rewrite Hnet, Hb.
  destruct (Z.leb_spec 0 (effective_retries retries)); [| lia].
  destruct (Z.eqb_spec (status resp) 429); [lia |].
  destruct (Z.leb_spec 500 (status resp)); [lia |]. cbn [andb].
  destruct (Z.leb_spec 400 (status resp)); [lia |]. reflexivity.
Qed.

(** An [aiohttp.ClientError] raised inside the [try], whatever its
    subclass, is handled by the same clause: a sleep and another
    attempt while [attempt < retries]. *)
Lemma retry_loop_transport_error fuel retries attempt tr msg sleep :
  net attempt = NetClientError msg -> attempt < retries ->
  backoff attempt = Some sleep ->
  retry_loop net (S fuel) retries attempt tr
  = retry_loop net fuel retries (attempt + 1)
      (tr ++ [EvAcquire 1; EvRequest attempt] ++ [sleep]).
Proof.
  intros Hnet Hlt Hb. cbn [retry_loop]. rewrite Hnet, Hb.
  destruct (Z.leb_spec attempt retries); [| lia].
  destruct (Z.ltb_spec attempt retries); [| lia].
  rewrite <- app_assoc. reflexivity.
Qed.

(** A 4xx status other than 429 reaches [resp.raise_for_status()], whose
    [ClientResponseError] the same clause catches: while
    [attempt < retries] the loop sleeps and tries again. *)
Lemma retry_loop_4xx_retried fuel retries attempt tr resp sleep :
  net attempt = NetResponse resp ->
  400 <= status resp < 500 -> status resp <> 429 -> attempt < retries ->
  backoff attempt = Some sleep ->
  retry_loop net (S fuel) retries attempt tr
  = retry_loop net fuel retries (attempt + 1)
      (tr ++ [EvAcquire 1; EvRequest attempt] ++ [sleep]).
Proof.
  intros Hnet Hs H429 Hlt Hb. cbn [retry_loop]. rewrite Hnet, Hb.
  destruct (Z.leb_spec attempt retries); [| lia].
  destruct (Z.eqb_spec (status resp) 429); [contradiction |].
  destruct (Z.leb_spec 500 (status resp)); [lia |].
  destruct (Z.leb_spec 400 (status resp)); [| lia].
  destruct (Z.ltb_spec attempt retries); [| lia].
  rewrite <- app_assoc. reflexivity.
Qed.

(** Where the bounds of [backoff] come from: [3^33] is the last power
    of three below [2^53], so [(3/2)^a = 3^a / 2^a] is a double exactly
    up to [a = 33]; [(3/2)^1750] is below the largest double
    [2^1024 - 2^971], and [(3/2)^1751] is beyond [2^1024]. *)
Lemma backoff_thresholds :
  3 ^ 33 < 2 ^ 53 < 3 ^ 34 /\
  3 ^ 1750 < (2 ^ 1024 - 2 ^ 971) * 2 ^ 1750 /\
  2 ^ 1024 * 2 ^ 1751 < 3 ^ 1751.
Proof. vm_compute. repeat split; reflexivity. Qed.

Lemma backoff_is_Some attempt : attempt <= 1750 -> is_Some (backoff attempt).
Proof.
  intros Ha. unfold backoff.
  destruct (attempt <=? 33); [eexists; reflexivity |].
  destruct (Z.leb_spec attempt 1750); [eexists; reflexivity | lia].
Qed.

Lemma backoff_overflow attempt : 1750 < attempt -> backoff attempt = None.
Proof.
  intros Ha. unfold backoff.
  destruct (Z.leb_spec attempt 33); [lia |].
  destruct (Z.leb_spec attempt 1750); [lia | reflexivity].
Qed.

(** On a network whose every call fails in transport, the loop makes
    one call per remaining attempt and then raises the "Failed after"
    error, as long as no backoff overflows. *)
Lemma retry_loop_always_failing retries (k : nat) : forall attempt fuel tr,
  (forall a, exists msg, net a = NetClientError msg) ->
  retries = attempt + Z.of_nat k -> retries <= 1751 -> (k < fuel)%nat ->
  exists tr' msg,
    retry_loop net fuel retries attempt tr
    = Some (tr', Raise (RuntimeError_FailedAfter (retries + 1) (TransportError msg)))
    /\ network_attempts tr' = (network_attempts tr + S k)%nat.
Proof.
  induction k as [| k IH]; intros attempt fuel tr Hnet Hr Hmax Hf.
  - destruct fuel as [| fuel]; [lia |].
    destruct (Hnet attempt) as [msg Hm].
    exists (tr ++ [EvAcquire 1; EvRequest attempt]), msg.
    cbn [retry_loop]. rewrite Hm.
    destruct (Z.leb_spec attempt retries); [| lia].
    destruct (Z.ltb_spec attempt retries); [lia |].
    split; [reflexivity |]. rewrite network_attempts_app. reflexivity.
  - destruct fuel as [| fuel]; [lia |].
    destruct (Hnet attempt) as [msg Hm].
    destruct (backoff_is_Some attempt) as [sleep Hb]; [lia |].
    rewrite (retry_loop_transport_error _ _ _ _ msg sleep Hm) by (lia || exact Hb).
    destruct (IH (attempt + 1) fuel
                (tr ++ [EvAcquire 1; EvRequest attempt] ++ [sleep])
                Hnet) as (tr' & msg' & Heq & Hn); [lia | lia | lia |].
    exists tr', msg'. split; [exact Heq |].
    rewrite Hn, network_attempts_app.
    unfold backoff in Hb. repeat case_match; simplify_eq; cbn; lia.
Qed.

(** With a bound beyond 1751 the same network never lets the loop get
    that far: at attempt 1751 the power [backoff_factor ** 1751]
    overflows in the [except] clause. *)
Lemma retry_loop_overflowing retries (k : nat) : forall attempt fuel tr,
  (forall a, exists msg, net a = NetClientError msg) ->
  1751 = attempt + Z.of_nat k -> 1751 < retries -> (k < fuel)%nat ->
  exists tr',
    retry_loop net fuel retries attempt tr = Some (tr', Raise OverflowError)
    /\ network_attempts tr' = (network_attempts tr + S k)%nat.
Proof.
  induction k as [| k IH]; intros attempt fuel tr Hnet Hr Hmax Hf.
  - destruct fuel as [| fuel]; [lia |].
    destruct (Hnet attempt) as [msg Hm].
    exists (tr ++ [EvAcquire 1; EvRequest attempt]).
    cbn [retry_loop]. rewrite Hm, backoff_overflow by lia.
    destruct (Z.leb_spec attempt retries); [| lia].
    destruct (Z.ltb_spec attempt retries); [| lia].
    split; [reflexivity |]. rewrite network_attempts_app. reflexivity.
  - destruct fuel as [| fuel]; [lia |].
    destruct (Hnet attempt) as [msg Hm].
    destruct (backoff_is_Some attempt) as [sleep Hb]; [lia |].
    rewrite (retry_loop_transport_error _ _ _ _ msg sleep Hm) by (lia || exact Hb).
    destruct (IH (attempt + 1) fuel
                (tr ++ [EvAcquire 1; EvRequest attempt] ++ [sleep])
                Hnet) as (tr' & Heq & Hn); [lia | lia | lia |].
    exists tr'. split; [exact Heq |].
    rewrite Hn, network_attempts_app.
    unfold backoff in Hb. repeat case_match; simplify_eq; cbn; lia.
Qed.

(** C2, amended. Retry exhaustion: when every network call of a
    request fails with an [aiohttp.ClientError] of the transport (a
    refused or reset connection; a timeout is not one, see
    [retry_exhaustion_counterexample]), [_make_request_internal] with
    retry bound [maxRetries] (the bound the loop runs with,
    [retries or Config.HTTP_RETRIES]) of at most 1751 ends after
    exactly [maxRetries + 1] network calls and raises the
    "Failed after [maxRetries + 1] attempts" [RuntimeError]. With a
    larger bound it ends after 1752 network calls with the
    [OverflowError] of [backoff_factor ** 1751]. *)
Theorem retry_exhaustion (retries : option Z) :
  let maxRetries := effective_retries retries in
  0 <= maxRetries ->
  (forall a, exists msg, net a = NetClientError msg) ->
  (maxRetries <= 1751 ->
   exists tr msg,
     _make_request_internal net retries
     = Some (tr, Raise (RuntimeError_FailedAfter (maxRetries + 1)
                          (TransportError msg)))
     /\ network_attempts tr = Z.to_nat (maxRetries + 1)) /\
  (1751 < maxRetries ->
   exists tr,
     _make_request_internal net retries = Some (tr, Raise OverflowError)
     /\ network_attempts tr = 1752%nat).
Proof.
  cbn zeta. intros Hr Hnet. unfold _make_request_internal, loop_fuel. split.
  - intros Hmax.
    destruct (retry_loop_always_failing (effective_retries retries)
                (Z.to_nat (effective_retries retries)) 0
                (S (Z.to_nat (effective_retries retries + 1))) [] Hnet)
      as (tr & msg & Heq & Hn); [lia | lia | lia |].
    exists tr, msg. split; [exact Heq |]. rewrite Hn. cbn. lia.
  - intros Hmax.
    destruct (retry_loop_overflowing (effective_retries retries) 1751 0
                (S (Z.to_nat (effective_retries retries + 1))) [] Hnet)
      as (tr & Heq & Hn); [lia | lia | lia |].
    exists tr. split; [exact Heq |]. rewrite Hn. reflexivity.
Qed.


End Loop.

Import ApiSamples.

Lemma retry_exhaustion_witness :
  exists tr msg,
    _make_request_internal always_refused (Some 2)
    = Some (tr, Raise (RuntimeError_FailedAfter 3 (TransportError msg)))
    /\ network_attempts tr = 3%nat.
Proof.
  apply (retry_exhaustion always_refused (Some 2)).
  - vm_compute. discriminate.
  - intros a. eexists. reflexivity.
  - vm_compute. discriminate.
Defined.

(** The claim as the specification words it fails on a request that
    always times out: the [asyncio.TimeoutError] is not an
    [aiohttp.ClientError], so the first one is re-raised, after one
    network call instead of four. *)
Lemma retry_exhaustion_counterexample : ~ retry_exhaustion_as_stated.
Proof.
  intros H.
  destruct (H always_timeout None) as (tr & e & Hrun & Hn & _).
  - vm_compute. discriminate.
  - intros a. reflexivity.
  - vm_compute in Hrun. injection Hrun as <- _. vm_compute in Hn. discriminate.
Qed.

Example timeout_is_not_retried :
  _make_request_internal always_timeout None
  = Some ([EvAcquire 1; EvRequest 0], Raise (OtherError "TimeoutError")).
Proof. reflexivity. Qed.

(** A bound of 2000 on a dead network: 1752 network calls, then the
    overflow. *)
Example overflow_on_a_dead_network :
  (fun r => (network_attempts r.1, r.2))
    <$> _make_request_internal always_refused (Some 2000)
  = Some (1752%nat, Raise OverflowError).
Proof. vm_compute. reflexivity. Qed.

(** A call that asks for zero retries on a dead network still makes
    [HTTP_RETRIES + 1 = 4] network calls. *)
Example zero_retries_four_attempts :
  (fun r => network_attempts r.1) <$> _make_request_internal always_refused (Some 0)
  = Some 4%nat.
Proof. reflexivity. Qed.

(** C1 at a failing input: a request that is answered [404] every time,
    with the default retry bound, is tried four times, with the three
    backoff sleeps in between, before the "Failed after 4 attempts"
    [RuntimeError] is raised; it does not fail at the first [404]. *)
Theorem client_fault_is_retried :
  _make_request_internal always_404 None
  = Some ([EvAcquire 1; EvRequest 0; EvSleep 1;
           EvAcquire 1; EvRequest 1; EvSleep (3 # 2);
           EvAcquire 1; EvRequest 2; EvSleep (9 # 4);
           EvAcquire 1; EvRequest 3],
          Raise (RuntimeError_FailedAfter 4 (ClientResponseError 404))).
Proof. reflexivity. Qed.

End RetrySpec.

Module RequestKeySpec.
Import ApiClient.

Lemma leb_cons c1 s1 c2 s2 :
  String.leb (String c1 s1) (String c2 s2)
  = match Ascii.compare c1 c2 with
    | Eq => String.leb s1 s2
    | Lt => true
    | Gt => false
    end.
Proof.
  unfold String.leb. cbn [String.compare].
  destruct (Ascii.compare c1 c2); reflexivity.
Qed.

Lemma str_le_trans : Transitive str_le.
Proof.
  unfold str_le. intros s1.
  induction s1 as [| c1 s1 IH]; intros s2 s3 H12 H23.
  - destruct s3; reflexivity.
  - destruct s2 as [| c2 s2]; [discriminate |].
    destruct s3 as [| c3 s3]; [discriminate |].
    rewrite leb_cons in *. unfold Ascii.compare in *.
    destruct (N.compare_spec (Ascii.N_of_ascii c1) (Ascii.N_of_ascii c2)) as [E12 | L12 | G12];
      destruct (N.compare_spec (Ascii.N_of_ascii c2) (Ascii.N_of_ascii c3)) as [E23 | L23 | G23];
      try discriminate.
    + rewrite E12, E23, N.compare_refl. eapply IH; eassumption.
    + rewrite E12. apply N.compare_lt_iff in L23. rewrite L23. reflexivity.
    + rewrite <- E23. apply N.compare_lt_iff in L12. rewrite L12. reflexivity.
    + assert (L13 : (Ascii.N_of_ascii c1 < Ascii.N_of_ascii c3)%N) by lia.
      apply N.compare_lt_iff in L13. rewrite L13. reflexivity.
Qed.

Lemma str_le_antisym : AntiSymm eq str_le.
Proof. intros a b. apply String.leb_antisym. Qed.

Lemma str_le_total a b : str_le a b \/ str_le b a.
Proof. apply String.leb_total. Qed.

Lemma insert_sorted_perm k l : insert_sorted k l ≡ₚ k :: l.
Proof.
  induction l as [| x l IH]; cbn [insert_sorted]; [reflexivity |].
  destruct (String.leb k x); [reflexivity |].
  rewrite IH. apply perm_swap.
Qed.

Lemma sorted_perm l : sorted l ≡ₚ l.
Proof.
  induction l as [| x l IH]; cbn [sorted]; [reflexivity |].
  rewrite insert_sorted_perm, IH. reflexivity.
Qed.

Lemma insert_sorted_Sorted k l :
  Sorted str_le l -> Sorted str_le (insert_sorted k l).
Proof.
  induction l as [| x l IH]; intros Hs; cbn [insert_sorted].
  - repeat constructor.
  - destruct (String.leb k x) eqn:E.
    + constructor; [exact Hs | constructor; exact E].
    + apply Sorted_inv in Hs as [Hs Hhd].
      constructor; [apply IH, Hs |].
      assert (Hxk : str_le x k).
      { destruct (str_le_total k x) as [H | H]; [unfold str_le in H; congruence | exact H]. }
      destruct l as [| y l]; cbn [insert_sorted].
      * constructor. exact Hxk.
      * destruct (String.leb k y); constructor; [exact Hxk |].
        inversion Hhd; assumption.
Qed.

Lemma sorted_Sorted l : Sorted str_le (sorted l).
Proof.
  induction l as [| x l IH]; cbn [sorted]; [constructor |].
  apply insert_sorted_Sorted, IH.
Qed.

(** [sorted] depends on the elements only, not on their order. *)
Lemma sorted_permutation l1 l2 : l1 ≡ₚ l2 -> sorted l1 = sorted l2.
Proof.
  intros Hp.
  apply (@Sorted_unique _ str_le str_le_trans str_le_antisym);
    [apply sorted_Sorted | apply sorted_Sorted |].
  rewrite !sorted_perm. exact Hp.
Qed.

(** [params[k]] is the value paired with [k]. *)
Lemma dict_get_elem (params : Params) k v :
  dict_wf params -> (k, v) ∈ params -> dict_get params k = v.
Proof.
  unfold dict_wf. induction params as [| [k' v'] params IH]; intros Hnd Hin.
  - inversion Hin.
  - cbn [fmap list_fmap fst] in Hnd. apply NoDup_cons in Hnd as [Hk' Hnd].
    cbn [dict_get]. apply elem_of_cons in Hin as [Heq | Hin].
    + injection Heq as -> ->. rewrite String.eqb_refl. reflexivity.
    + destruct (String.eqb_spec k k') as [-> | Hne]; [| apply IH; assumption].
      exfalso. apply Hk'. apply list_elem_of_fmap. exists (k', v). split; [reflexivity | exact Hin].
Qed.

Lemma request_key_nonempty method endpoint (params : Params) :
  params <> [] ->
  _request_key method endpoint (Some params)
  = (method ++ ":" ++ endpoint ++ ":" ++
     String.concat "&"
       (map (fun k => (k ++ "=" ++ dict_get params k)%string)
            (sorted (map fst params))))%string.
Proof. destruct params; [congruence | reflexivity]. Qed.

(** C9. [_request_key] gives the same key for the same method, the
    same endpoint, and two parameter dictionaries that hold the same
    (name, value) pairs, in whatever order the pairs were inserted. *)
Theorem request_key_order_independent (method endpoint : string)
    (params1 params2 : Params) :
  dict_wf params1 -> dict_wf params2 ->
  (forall kv, kv ∈ params1 <-> kv ∈ params2) ->
  _request_key method endpoint (Some params1)
  = _request_key method endpoint (Some params2).
Proof.
  intros Hwf1 Hwf2 Hsame.
  assert (Hkeys : sorted (map fst params1) = sorted (map fst params2)).
  { apply sorted_permutation. apply NoDup_Permutation; [exact Hwf1 | exact Hwf2 |].
    intros k. rewrite !list_elem_of_fmap. split; intros ([k' v] & -> & Hin);
      exists (k', v); (split; [reflexivity | apply Hsame, Hin]). }
  assert (Hvals : map (fun k => (k ++ "=" ++ dict_get params1 k)%string)
                      (sorted (map fst params1))
                = map (fun k => (k ++ "=" ++ dict_get params2 k)%string)
                      (sorted (map fst params2))).
  { rewrite <- Hkeys. apply map_ext_in. intros k Hk.
    apply list_elem_of_In in Hk. rewrite sorted_perm in Hk.
    apply list_elem_of_fmap in Hk as ([k' v] & -> & Hin). cbn [fst].
    rewrite (dict_get_elem params1 k' v Hwf1 Hin).
    rewrite (dict_get_elem params2 k' v Hwf2 (proj1 (Hsame _) Hin)).
    reflexivity. }
  destruct (decide (params1 = [])) as [-> | Hne1].
  - destruct params2 as [| p2 params2]; [reflexivity |].
    exfalso. eapply not_elem_of_nil. apply Hsame. left.
  - assert (Hne2 : params2 <> []).
    { intros ->. destruct params1 as [| p1 params1]; [congruence |].
      eapply not_elem_of_nil. apply Hsame. left. }
    rewrite !request_key_nonempty by assumption.
    rewrite Hvals. reflexivity.
Qed.

Lemma request_key_order_independent_witness :
  _request_key "GET" "/faction/19"
    (Some [("selections", "reports"); ("key", "K"); ("from", "7")])
  = _request_key "GET" "/faction/19"
      (Some [("from", "7"); ("selections", "reports"); ("key", "K")]).
Proof.
  apply request_key_order_independent.
  - apply (bool_decide_unpack _). exact I.
  - apply (bool_decide_unpack _). exact I.
  - intros kv. rewrite !elem_of_cons, !elem_of_nil. tauto.
Defined.

Example request_key_sample :
  _request_key "GET" "/faction/19"
    (Some [("selections", "reports"); ("key", "K"); ("from", "7")])
  = "GET:/faction/19:from=7&key=K&selections=reports"%string.
Proof. reflexivity. Qed.

Example request_key_no_params :
  _request_key "GET" "/leaderboard" None = "GET:/leaderboard:"%string
  /\ _request_key "GET" "/leaderboard" (Some []) = "GET:/leaderboard:"%string.
Proof. split; reflexivity. Qed.

End RequestKeySpec.

Module BatchSpec.
Import ApiClient.

Section Batch.

Context {Payload : Type}.

Lemma foldl_collect l : forall (acc : gmap string Payload) id,
  foldl collect acc l !! id
  = match last_success l id with
    | Some p => Some p
    | None => acc !! id
    end.
Proof.
  induction l as [| [k r] l IH]; intros acc id; [reflexivity |].
  cbn [foldl last_success]. rewrite IH.
  destruct (last_success l id); [reflexivity |].
  destruct r as [p | e]; cbn; [| reflexivity].
  destruct (decide (k = id)) as [-> | Hne].
  - apply lookup_insert_eq.
  - apply lookup_insert_ne, Hne.
Qed.

Lemma last_success_elem (l : list (string * Result Payload)) id p :
  last_success l id = Some p -> (id, Return p) ∈ l.
Proof.
  induction l as [| [k r] l IH]; [discriminate |].
  cbn [last_success]. destruct (last_success l id) as [q |].
  - intros [= ->]. right. apply IH. reflexivity.
  - destruct r as [q | e]; [| discriminate].
    destruct (decide (k = id)) as [-> |]; [| discriminate].
    intros [= ->]. left.
Qed.

Lemma last_success_is_Some (l : list (string * Result Payload)) id p :
  (id, Return p) ∈ l -> is_Some (last_success l id).
Proof.
  induction l as [| [k r] l IH]; intros Hin; [inversion Hin |].
  cbn [last_success]. apply elem_of_cons in Hin as [[= <- <-] | Hin].
  - destruct (last_success l id); [eauto |]. rewrite decide_True by reflexivity. eauto.
  - destruct (IH Hin) as [q ->]. eauto.
Qed.

Lemma fetch_lookup (ids : list string) (responses : list (Result Payload))
    (id : string) :
  fetch_multiple_players ids responses !! id
  = last_success (zip ids responses) id.
Proof.
  unfold fetch_multiple_players. rewrite foldl_collect.
  destruct (last_success _ _); [reflexivity | apply lookup_empty].
Qed.

Lemma elem_of_zip_lookup (ids : list string)
    (responses : list (Result Payload)) (id : string) (r : Result Payload) :
  (id, r) ∈ zip ids responses
  <-> exists i, ids !! i = Some id /\ responses !! i = Some r.
Proof.
  rewrite list_elem_of_lookup. split; intros [i Hi]; exists i.
  - apply lookup_zip_Some, Hi.
  - apply lookup_zip_Some, Hi.
Qed.

(** Replacing the response of one task leaves the entries of the other
    ids as they were. *)
Lemma last_success_insert (ids : list string) :
  forall (responses : list (Result Payload)) (j : nat) r (id : string),
  ids !! j <> Some id ->
  last_success (zip ids (<[j := r]> responses)) id
  = last_success (zip ids responses) id.
Proof.
  induction ids as [| k ids IH]; intros responses j r id Hj; [reflexivity |].
  destruct responses as [| r0 responses]; [reflexivity |].
  destruct j as [| j]; cbn [zip_with last_success].
  - cbn in Hj. change (<[0%nat := r]> (r0 :: responses)) with (r :: responses).
    cbn [zip_with last_success].
    destruct (last_success _ id); [reflexivity |].
    destruct (decide (k = id)) as [-> | Hne]; [congruence |].
    destruct r, r0; reflexivity.
  - change (<[S j := r]> (r0 :: responses)) with (r0 :: <[j := r]> responses).
    cbn [zip_with last_success]. rewrite IH by exact Hj. reflexivity.
Qed.

(** C8. The mapping returned by [fetch_multiple_players] holds an id
    exactly when a fetch of that id succeeded, under a payload that a
    fetch of that id returned (the payload of its fetch, when ids are
    not repeated); an id whose fetches all failed is absent; and what
    the task of one id yields, a failure included, does not change the
    entry of any other id. *)
Theorem partial_batch_success (player_ids : list string)
    (responses : list (Result Payload)) (id : string) :
  let results := fetch_multiple_players player_ids responses in
  (is_Some (results !! id) <->
     exists i p, player_ids !! i = Some id /\ responses !! i = Some (Return p)) /\
  (forall p, results !! id = Some p ->
     exists i, player_ids !! i = Some id /\ responses !! i = Some (Return p)) /\
  (NoDup player_ids -> forall i p,
     player_ids !! i = Some id -> responses !! i = Some (Return p) ->
     results !! id = Some p) /\
  ((forall i r, player_ids !! i = Some id -> responses !! i = Some r ->
      exists e, r = Raise e) ->
   results !! id = None) /\
  (forall j r, player_ids !! j <> Some id ->
     fetch_multiple_players player_ids (<[j := r]> responses) !! id
     = results !! id).
Proof.
  cbn zeta.
  assert (Hsound : forall p,
            fetch_multiple_players player_ids responses !! id = Some p ->
            exists i, player_ids !! i = Some id /\ responses !! i = Some (Return p)).
  { intros p Hp. rewrite fetch_lookup in Hp.
    apply elem_of_zip_lookup, last_success_elem, Hp. }
  split; [| split; [exact Hsound | split; [| split]]].
  - split.
    + intros [p Hp]. destruct (Hsound p Hp) as [i Hi]. eauto.
    + intros (i & p & Hi). rewrite fetch_lookup.
      eapply last_success_is_Some, elem_of_zip_lookup. eauto.
  - intros Hnd i p Hi Hr.
    destruct (last_success_is_Some (zip player_ids responses) id p) as [q Hq].
    { apply elem_of_zip_lookup. eauto. }
    rewrite <- fetch_lookup in Hq. rewrite Hq. f_equal.
    destruct (Hsound q Hq) as (i' & Hi' & Hr').
    assert (i' = i) as -> by (eapply NoDup_lookup; eassumption).
    congruence.
  - intros Hall.
    destruct (fetch_multiple_players player_ids responses !! id) as [p |] eqn:Hp;
      [| reflexivity].
    destruct (Hsound p eq_refl) as (i & Hi & Hr).
    destruct (Hall i _ Hi Hr) as [e He]. discriminate.
  - intros j r Hj. rewrite !fetch_lookup. apply last_success_insert, Hj.
Qed.

End Batch.

Import ApiSamples.

Lemma partial_batch_success_witness :
  fetch_multiple_players sample_ids sample_responses !! "A"%string
    = Some "a"%string /\
  fetch_multiple_players sample_ids sample_responses !! "B"%string = None /\
  fetch_multiple_players sample_ids sample_responses !! "C"%string
    = Some "c"%string.
Proof.
  split; [| split].
  - pose proof (partial_batch_success sample_ids sample_responses "A"%string)
      as (_ & _ & H & _).
    apply H with (i := 0%nat);
      [apply (bool_decide_unpack _); exact I | reflexivity | reflexivity].
  - pose proof (partial_batch_success sample_ids sample_responses "B"%string)
      as (_ & _ & _ & H & _).
    apply H. intros [| [| [| i]]] r Hi Hr; simplify_eq/=; eauto.
  - pose proof (partial_batch_success sample_ids sample_responses "C"%string)
      as (_ & _ & H & _).
    apply H with (i := 2%nat);
      [apply (bool_decide_unpack _); exact I | reflexivity | reflexivity].
Defined.

Example partial_batch_sample :
  fetch_multiple_players sample_ids sample_responses
  = {[ "A"%string := "a"%string; "C"%string := "c"%string ]}.
Proof. apply (bool_decide_unpack _). vm_compute. exact I. Qed.

End BatchSpec.

Module InflightSpec.
Import ApiClient Inflight.

#[local] Arguments _make_request_internal : simpl never.
#[local] Arguments _request_key : simpl never.
#[local] Arguments call_key : simpl never.

Section Coalescing.

Context {Payload : Type}.
Implicit Types (w : World Payload) (c : Call Payload) (t : Task Payload).

Lemma call_key_set_state c s : call_key (set_state c s) = call_key c.
Proof. reflexivity. Qed.

Lemma hangs_on_done t t' c :
  task_done t = None -> hangs_on t c -> hangs_on t' c.
Proof.
  unfold hangs_on. intros Hn. destruct (call_state c); auto.
  intros [tr Htr]. congruence.
Qed.

(** Once both calls hang on the single task, every step keeps it so. *)
Lemma coalesced_step w s w' :
  coalesced w -> step w s = Some w' -> coalesced w'.
Proof.
  intros (t & ca & cb & Ht & Hc & Hs & Ha & Hb) Hstep.
  destruct s as [c | tid net | c]; cbn [step] in Hstep; rewrite ?Ht, ?Hc in Hstep.
  - (* Enter: no call is left to begin *)
    unfold hangs_on in Ha, Hb.
    destruct c as [| [| c]]; cbn in Hstep; [| | discriminate].
    + destruct (call_state ca); try discriminate; contradiction.
    + destruct (call_state cb); try discriminate; contradiction.
  - (* Complete: only task 0 exists *)
    destruct tid as [| tid]; cbn in Hstep; [| discriminate].
    destruct (task_done t) eqn:Hd; [discriminate |].
    destruct (_make_request_internal net (task_retries t)) as [outcome |] eqn:Hrun;
      [| discriminate].
    injection Hstep as <-.
    exists (mkTask (task_retries t) (Some outcome)), ca, cb. cbn.
    repeat split; try assumption.
    + intros o [= <-]. exists net. exact Hrun.
    + eapply hangs_on_done; eassumption.
    + eapply hangs_on_done; eassumption.
  - (* Resume: the call takes the outcome of task 0 *)
    destruct c as [| [| c]]; cbn in Hstep; [| | discriminate].
    + unfold hangs_on in Ha.
      destruct (call_state ca) as [| tid | tid |] eqn:Hst; try discriminate;
        subst tid; cbn in Hstep;
        destruct (task_done t) as [[tr r] |] eqn:Hd; try discriminate;
        injection Hstep as <-;
        exists t, (set_state ca (Finished r)), cb; cbn;
        repeat split; try assumption;
        unfold hangs_on; cbn; eauto.
    + unfold hangs_on in Hb.
      destruct (call_state cb) as [| tid | tid |] eqn:Hst; try discriminate;
        subst tid; cbn in Hstep;
        destruct (task_done t) as [[tr r] |] eqn:Hd; try discriminate;
        injection Hstep as <-;
        exists t, ca, (set_state cb (Finished r)); cbn;
        repeat split; try assumption;
        unfold hangs_on; cbn; eauto.
Qed.

Lemma coalesced_run steps : forall w w',
  coalesced w -> run w steps = Some w' -> coalesced w'.
Proof.
  induction steps as [| s steps IH]; intros w w' Hw Hrun; cbn [run] in Hrun.
  - injection Hrun as <-. exact Hw.
  - destruct (step w s) as [w1 |] eqn:Hs; [| discriminate].
    eapply IH; [eapply coalesced_step; eassumption | exact Hrun].
Qed.

(** A step keeps the two calls, their keys, and a call that is over. *)
Lemma step_calls w s w' ca cb :
  step w s = Some w' -> calls w = [ca; cb] ->
  exists ca' cb',
    calls w' = [ca'; cb'] /\
    call_key ca' = call_key ca /\ call_key cb' = call_key cb /\
    (is_finished ca -> ca' = ca) /\ (is_finished cb -> cb' = cb).
Proof.
  intros Hstep Hc.
  assert (Hsame : calls w' = calls w ->
            exists ca' cb',
              calls w' = [ca'; cb'] /\
              call_key ca' = call_key ca /\ call_key cb' = call_key cb /\
              (is_finished ca -> ca' = ca) /\ (is_finished cb -> cb' = cb)).
  { intros ->. exists ca, cb. rewrite Hc. auto. }
  assert (Hset0 : forall st, ~ is_finished ca ->
            calls w' = [set_state ca st; cb] ->
            exists ca' cb',
              calls w' = [ca'; cb'] /\
              call_key ca' = call_key ca /\ call_key cb' = call_key cb /\
              (is_finished ca -> ca' = ca) /\ (is_finished cb -> cb' = cb)).
  { intros st Hnf ->. exists (set_state ca st), cb.
    repeat split; auto. intros Hf. contradiction. }
  assert (Hset1 : forall st, ~ is_finished cb ->
            calls w' = [ca; set_state cb st] ->
            exists ca' cb',
              calls w' = [ca'; cb'] /\
              call_key ca' = call_key ca /\ call_key cb' = call_key cb /\
              (is_finished ca -> ca' = ca) /\ (is_finished cb -> cb' = cb)).
  { intros st Hnf ->. exists ca, (set_state cb st).
    repeat split; auto. intros Hf. contradiction. }
  destruct s as [c | tid net | c]; cbn [step] in Hstep.
  - rewrite Hc in Hstep. destruct c as [| [| c]]; cbn in Hstep; [| | discriminate].
    + destruct (call_state ca) eqn:Hst; try discriminate.
      destruct (_inflight_requests w !! call_key ca); injection Hstep as <-;
        (eapply Hset0; [intros [r Hr]; congruence | reflexivity]).
    + destruct (call_state cb) eqn:Hst; try discriminate.
      destruct (_inflight_requests w !! call_key cb); injection Hstep as <-;
        (eapply Hset1; [intros [r Hr]; congruence | reflexivity]).
  - destruct (tasks w !! tid) as [t |]; [| discriminate].
    destruct (task_done t); [discriminate |].
    destruct (_make_request_internal net (task_retries t)); [| discriminate].
    injection Hstep as <-. apply Hsame. reflexivity.
  - rewrite Hc in Hstep. destruct c as [| [| c]]; cbn in Hstep; [| | discriminate].
    + destruct (call_state ca) eqn:Hst; try discriminate;
        destruct (tasks w !! tid ≫= task_done); try discriminate;
        injection Hstep as <-;
        (eapply Hset0; [intros [r Hr]; congruence | reflexivity]).
    + destruct (call_state cb) eqn:Hst; try discriminate;
        destruct (tasks w !! tid ≫= task_done); try discriminate;
        injection Hstep as <-;
        (eapply Hset1; [intros [r Hr]; congruence | reflexivity]).
Qed.

Lemma task_sound_fresh (retries : option Z) :
  task_sound (mkTask (Payload := Payload) retries None).
Proof. intros outcome. discriminate. Qed.

(** Every step keeps the invariant of two calls with the same key. *)
Lemma reach_inv_step k w s w' :
  reach_inv k w -> step w s = Some w' -> reach_inv k w'.
Proof.
  intros [(ca & cb & Hc & Hka & Hkb) Hcase] Hstep.
  destruct (step_calls w s w' ca cb Hstep Hc)
    as (ca' & cb' & Hc' & Hka' & Hkb' & Hfa & Hfb).
  split; [exists ca', cb'; repeat split; congruence |].
  destruct Hcase as [Hnone | [Hone | [Hco | Hfin]]].
  - (* nothing in flight: the first call to begin launches task 0 *)
    destruct Hnone as (Ht & Hi & Hns). rewrite Hc in Hns.
    apply Forall_cons in Hns as [Hsa Hns]. apply Forall_cons in Hns as [Hsb _].
    right; left.
    destruct s as [c | tid net | c]; cbn [step] in Hstep; rewrite ?Hc, ?Ht in Hstep.
    + destruct c as [| [| c]]; cbn in Hstep; [| | discriminate].
      * rewrite Hsa, Hi, lookup_empty in Hstep. injection Hstep as <-.
        exists (mkTask (call_retries ca) None), (set_state ca (AwaitingOwn 0)), cb.
        cbn. rewrite Hka, lookup_insert_eq.
        repeat split; auto using task_sound_fresh.
      * rewrite Hsb, Hi, lookup_empty in Hstep. injection Hstep as <-.
        exists (mkTask (call_retries cb) None), ca, (set_state cb (AwaitingOwn 0)).
        cbn. rewrite Hkb, lookup_insert_eq.
        repeat split; auto using task_sound_fresh.
    + rewrite lookup_nil in Hstep. discriminate.
    + destruct c as [| [| c]]; cbn in Hstep; [| | discriminate].
      * rewrite Hsa in Hstep. discriminate.
      * rewrite Hsb in Hstep. discriminate.
  - (* one call awaits task 0 *)
    destruct Hone as (t & ca0 & cb0 & Ht & Hc0 & Hs & Hi & Hst).
    rewrite Hc in Hc0. injection Hc0 as <- <-.
    destruct s as [c | tid net | c]; cbn [step] in Hstep; rewrite ?Hc, ?Ht in Hstep.
    + (* the other call begins and finds the key registered *)
      right; right; left.
      destruct c as [| [| c]]; cbn in Hstep; [| | discriminate];
        destruct Hst as [[Hsa Hsb] | [Hsa Hsb]];
        rewrite ?Hsa, ?Hsb, ?Hka, ?Hkb, ?Hi in Hstep; try discriminate;
        injection Hstep as <-.
      * exists t, (set_state ca (AwaitingShared 0)), cb. cbn.
        repeat split; auto. unfold hangs_on. rewrite Hsb. reflexivity.
      * exists t, ca, (set_state cb (AwaitingShared 0)). cbn.
        repeat split; auto. unfold hangs_on. rewrite Hsa. reflexivity.
    + (* the task ends before the other call begins *)
      right; left.
      destruct tid as [| tid]; cbn in Hstep; [| discriminate].
      destruct (task_done t) eqn:Hd; [discriminate |].
      destruct (_make_request_internal net (task_retries t)) as [outcome |] eqn:Hrun;
        [| discriminate].
      injection Hstep as <-.
      exists (mkTask (task_retries t) (Some outcome)), ca, cb. cbn.
      repeat split; auto.
      intros o [= <-]. exists net. exact Hrun.
    + (* the first call is over before the other begins *)
      right; right; right. rewrite Hc'.
      destruct c as [| [| c]]; cbn in Hstep; [| | discriminate];
        destruct Hst as [[Hsa Hsb] | [Hsa Hsb]];
        rewrite ?Hsa, ?Hsb in Hstep; try discriminate;
        cbn in Hstep;
        destruct (task_done t) as [outcome |]; try discriminate;
        injection Hstep as <-; cbn in Hc'; injection Hc' as <- <-.
      * apply Exists_cons_hd. eexists. reflexivity.
      * apply Exists_cons_tl, Exists_cons_hd. eexists. reflexivity.
  - right; right; left. eapply coalesced_step; eassumption.
  - right; right; right. rewrite Hc in Hfin. rewrite Hc'.
    apply Exists_cons in Hfin as [Hf | Hfin].
    + rewrite (Hfa Hf). apply Exists_cons_hd, Hf.
    + apply Exists_cons in Hfin as [Hf | Hfin]; [| inversion Hfin].
      rewrite (Hfb Hf). apply Exists_cons_tl, Exists_cons_hd, Hf.
Qed.

Lemma reach_inv_run k steps : forall w w',
  reach_inv k w -> run w steps = Some w' -> reach_inv k w'.
Proof.
  induction steps as [| s steps IH]; intros w w' Hw Hrun; cbn [run] in Hrun.
  - injection Hrun as <-. exact Hw.
  - destruct (step w s) as [w1 |] eqn:Hs; [| discriminate].
    eapply IH; [eapply reach_inv_step; eassumption | exact Hrun].
Qed.

Lemma reach_inv_init (c1 c2 : Call Payload) :
  call_key c1 = call_key c2 -> reach_inv (call_key c1) (two_calls c1 c2).
Proof.
  intros Hk. split.
  - exists (set_state c1 NotStarted), (set_state c2 NotStarted).
    split; [reflexivity |]. split; [reflexivity |].
    rewrite call_key_set_state. symmetry. exact Hk.
  - left. repeat split. repeat constructor.
Qed.

(** When both calls are in progress, they hang on the same task. *)
Lemma reach_inv_in_progress k w :
  reach_inv k w -> Forall in_progress (calls w) -> coalesced w.
Proof.
  intros [(ca & cb & Hc & _) Hcase] Hp. rewrite Hc in Hp.
  apply Forall_cons in Hp as [Hpa Hp]. apply Forall_cons in Hp as [Hpb _].
  unfold in_progress in Hpa, Hpb.
  destruct Hcase as [Hnone | [Hone | [Hco | Hfin]]].
  - destruct Hnone as (_ & _ & Hns). rewrite Hc in Hns.
    apply Forall_cons in Hns as [Hsa _]. rewrite Hsa in Hpa. contradiction.
  - destruct Hone as (t & ca0 & cb0 & _ & Hc0 & _ & _ & Hst).
    rewrite Hc in Hc0. injection Hc0 as <- <-.
    destruct Hst as [[_ Hs] | [Hs _]];
      [rewrite Hs in Hpb | rewrite Hs in Hpa]; contradiction.
  - exact Hco.
  - rewrite Hc in Hfin. apply Exists_cons in Hfin as [[r Hf] | Hfin].
    + rewrite Hf in Hpa. contradiction.
    + apply Exists_cons in Hfin as [[r Hf] | Hfin]; [| inversion Hfin].
      rewrite Hf in Hpb. contradiction.
Qed.

(** C5, amended. De-duplication: take two calls of [_make_request]
    with the same request key and any schedule in which, at some
    instant, both are in progress. Then exactly one run of the request
    is made: one task running [_make_request_internal] exists from then
    on, the network calls made are those of that one run (one for each
    attempt of its retry loop, so more than one when attempts fail, see
    [deduplication_counterexample]), its outcome is that of a single
    run on the network, every call that is over returned or raised that
    outcome, so both calls get the same payload or the same failure.
    Nothing gets stuck: the task can always run to its end, and once it
    has, every call in progress can be resumed. *)
Theorem inflight_deduplication (c1 c2 : Call Payload)
    (pre post : list (Step Payload)) (wmid w : World Payload) :
  call_key c1 = call_key c2 ->
  run (two_calls c1 c2) pre = Some wmid ->
  Forall in_progress (calls wmid) ->
  run wmid post = Some w ->
  exists t,
    tasks w = [t] /\
    network_calls w = task_attempts t /\
    (forall outcome, task_done t = Some outcome ->
       exists net, _make_request_internal net (task_retries t) = Some outcome) /\
    (forall (i : nat) r, call_result w i = Some r ->
       exists tr, task_done t = Some (tr, r)) /\
    (forall ra rb, call_result w 0 = Some ra -> call_result w 1 = Some rb ->
       ra = rb) /\
    (task_done t = None -> forall net, is_Some (step w (Complete 0 net))) /\
    (is_Some (task_done t) -> forall (i : nat) call,
       calls w !! i = Some call -> in_progress call ->
       is_Some (step w (Resume i))).
Proof.
  intros Hk Hpre Hp Hpost.
  assert (Hco : coalesced w).
  { eapply coalesced_run; [| exact Hpost].
    eapply reach_inv_in_progress; [| exact Hp].
    eapply reach_inv_run; [apply reach_inv_init, Hk | exact Hpre]. }
  destruct Hco as (t & ca & cb & Ht & Hc & Hs & Ha & Hb).
  assert (Hres : forall (i : nat) r, call_result w i = Some r ->
            exists tr, task_done t = Some (tr, r)).
  { intros i r. unfold call_result. rewrite Hc.
    unfold hangs_on in Ha, Hb.
    destruct i as [| [| i]]; cbn; [| | discriminate].
    - destruct (call_state ca); try discriminate. intros [= <-]. exact Ha.
    - destruct (call_state cb); try discriminate. intros [= <-]. exact Hb. }
  exists t. split; [exact Ht |].
  split; [unfold network_calls; rewrite Ht; cbn; lia |].
  split; [exact Hs |]. split; [exact Hres |].
  split; [| split].
  - intros ra rb Hra Hrb.
    destruct (Hres _ _ Hra) as [tra Ha'], (Hres _ _ Hrb) as [trb Hb']. congruence.
  - intros Hd net. cbn [step]. rewrite Ht. cbn. rewrite Hd.
    destruct (RetrySpec._make_request_internal_total net (task_retries t))
      as [outcome ->]. eauto.
  - intros [outcome Hd] i call Hcall Hip. cbn [step]. rewrite Hcall.
    assert (Hh : hangs_on t call).
    { rewrite Hc in Hcall. destruct i as [| [| i]]; cbn in Hcall;
        [| | discriminate]; injection Hcall as <-; assumption. }
    unfold hangs_on in Hh. unfold in_progress in Hip.
    destruct (call_state call); try contradiction; subst tid;
      rewrite Ht; cbn; rewrite Hd; eauto.
Qed.

End Coalescing.

Import ApiSamples.

Lemma inflight_deduplication_witness :
  exists wmid w t,
    run (two_calls sample_call_1 sample_call_2) both_begin = Some wmid /\
    run wmid then_finish = Some w /\
    tasks w = [t] /\
    network_calls w = 1%nat /\
    call_result w 0 = Some (Return "{}"%string) /\
    call_result w 1 = Some (Return "{}"%string).
Proof.
  destruct (run (two_calls sample_call_1 sample_call_2) both_begin)
    as [wmid |] eqn:Hmid; [| vm_compute in Hmid; discriminate].
  destruct (run wmid then_finish) as [w |] eqn:Hw;
    [| injection Hmid as <-; vm_compute in Hw; discriminate].
  destruct (inflight_deduplication sample_call_1 sample_call_2
              both_begin then_finish wmid w) as (t & Ht & _);
    [reflexivity | exact Hmid | | exact Hw |].
  - injection Hmid as <-. repeat constructor.
  - exists wmid, w, t. split; [reflexivity |]. split; [exact Hw |].
    split; [exact Ht |].
    injection Hmid as <-. injection Hw as <-. repeat split; reflexivity.
Defined.

(** The claim as the specification words it fails when the network is
    down: the one run the two calls share makes four network calls, one
    for each attempt, before both calls get its failure. *)
Lemma deduplication_counterexample : ~ deduplication_as_stated.
Proof.
  intros H.
  destruct (run (two_calls sample_call_1 sample_call_2) both_begin)
    as [wmid |] eqn:Hmid; [| vm_compute in Hmid; discriminate].
  destruct (run wmid then_fail) as [w |] eqn:Hw;
    [| injection Hmid as <-; vm_compute in Hw; discriminate].
  destruct (H sample_call_1 sample_call_2 both_begin then_fail wmid w
              eq_refl Hmid) as [Hn _].
  - injection Hmid as <-. repeat constructor.
  - exact Hw.
  - injection Hmid as <-. injection Hw as <-.
    repeat constructor; eexists; reflexivity.
  - injection Hmid as <-. injection Hw as <-.
    vm_compute in Hn. discriminate.
Qed.

Example coalesced_calls_on_a_dead_network :
  (fun w => (length (tasks w), network_calls w, call_result w 0, call_result w 1))
    <$> run (two_calls sample_call_1 sample_call_2) (both_begin ++ then_fail)
  = Some (1%nat, 4%nat,
          Some (Raise (RuntimeError_FailedAfter 4
                         (TransportError "Cannot connect to host"))),
          Some (Raise (RuntimeError_FailedAfter 4
                         (TransportError "Cannot connect to host")))).
Proof. reflexivity. Qed.

(** Without an instant at which both calls are in progress there is
    nothing to coalesce: run one after the other, the two calls launch
    two requests and may get different outcomes. *)
Example sequential_calls_are_not_coalesced :
  (fun w => (length (tasks w), call_result w 0, call_result w 1))
    <$> run (two_calls sample_call_1 sample_call_2) one_after_the_other
  = Some (2%nat, Some (Return "{}"%string),
          Some (Raise (RuntimeError_FailedAfter 2
                         (TransportError "Cannot connect to host")))).
Proof. reflexivity. Qed.

End InflightSpec.

Module RateLimitUseSpec.
Import RateLimit RateLimitUse.

Lemma over_capacity_loop n timeout start clock : forall b,
  capacity b < n ->
  (acquire_loop b n timeout start clock).2 <> Some true /\
  (timeout = None -> (acquire_loop b n timeout start clock).2 = None).
Proof.
  induction clock as [| p clock IH]; intros b Hn.
  - cbn. split; [discriminate | reflexivity].
  - cbn [acquire_loop]. unfold refill_and_debit.
    destruct (Qle_bool (inject_Z n) (tokens (refill b (poll_now p)))) eqn:E.
    + exfalso. apply Qle_bool_iff in E. cbn [refill tokens] in E.
      pose proof (Q.le_min_l (inject_Z (capacity b))
                    (tokens b + (poll_now p - last_refill b) * refill_rate b)) as Hm.
      assert (Hq : (inject_Z n <= inject_Z (capacity b))%Q) by lra.
      rewrite <- Zle_Qle in Hq. lia.
    + specialize (IH (refill b (poll_now p)) Hn).
      destruct timeout as [t |].
      * destruct (Qle_bool (poll_check p - start) t).
        -- destruct (acquire_loop (refill b (poll_now p)) n (Some t) start clock)
             as [bs r]. cbn in *. destruct IH as [IH _]. split; [exact IH | discriminate].
        -- cbn. split; discriminate.
      * destruct (acquire_loop (refill b (poll_now p)) n None start clock)
          as [bs r]. cbn in *. exact IH.
Qed.

(** X2. A request for more tokens than the capacity is never granted:
    [acquire] never returns [True], and without a timeout it never
    returns at all ([wait_until_available] polls for ever). *)
Theorem over_capacity_never_granted (b : TokenBucket) (n : Z)
    (timeout : option Q) (start : Q) (clock : list Poll) :
  capacity b < n ->
  (acquire b n timeout start clock).2 <> Some true /\
  (acquire b n None start clock).2 = None.
Proof.
  intros Hn. unfold acquire.
  destruct (over_capacity_loop n timeout start clock b Hn) as [H1 _].
  destruct (over_capacity_loop n None start clock b Hn) as [_ H2].
  destruct (acquire_loop b n timeout start clock) as [bs r].
  destruct (acquire_loop b n None start clock) as [bs' r'].
  cbn in *. auto.
Qed.

Lemma over_capacity_never_granted_witness :
  (acquire sample_bucket 3 None 0 [mkPoll 0 0; mkPoll 100 100; mkPoll 1000 1000]).2
  = None.
Proof.
  apply (over_capacity_never_granted sample_bucket 3 None 0). reflexivity.
Defined.





End RateLimitUseSpec.

Module StorageMore.
Import Storage StorageView.

Section CacheLaws.

Context {Payload : Type}.
Variable json_dumps : Payload -> string.
Variable json_loads : string -> Payload.
Implicit Types (c : Cache Payload) (k : Key).

(** The answer of [get_cached_response], read off the two tiers. *)
Lemma get_answer c k g1 g2 :
  (get_cached_response json_loads c k g1 g2).2
  = match _memory_cache c !! k with
    | Some e =>
        if fresh g1 (mem_created_at e) (mem_ttl e)
        then Some (mem_data e)
        else db_answer json_loads c k g2
    | None => db_answer json_loads c k g2
    end.
Proof.
  unfold get_cached_response, db_answer, delete_cached_response,
    set_memory, db_exec.
  destruct (_memory_cache c !! k) as [e |];
    [destruct (fresh g1 (mem_created_at e) (mem_ttl e)); [reflexivity |] |];
    cbn; destruct (session_only c); try reflexivity;
    (destruct (api_cache c !! k) as [row |]; [| reflexivity]);
    destruct (fresh g2 (created_at row) (ttl_seconds row)); reflexivity.
Qed.

(** What [get_cached_response] leaves in the two tiers under another
    key, and the mode, are what it found. *)
Lemma get_frame c k k' g1 g2 :
  k <> k' ->
  _memory_cache (get_cached_response json_loads c k g1 g2).1 !! k'
    = _memory_cache c !! k' /\
  api_cache (get_cached_response json_loads c k g1 g2).1 !! k'
    = api_cache c !! k' /\
  session_only (get_cached_response json_loads c k g1 g2).1 = session_only c.
Proof.
  intros Hne.
  unfold get_cached_response, delete_cached_response, set_memory, db_exec.
  destruct (_memory_cache c !! k) as [e |];
    [destruct (fresh g1 (mem_created_at e) (mem_ttl e)); [auto |] |];
    cbn; destruct (session_only c) eqn:Es; cbn;
    rewrite ?Es, ?lookup_delete_ne by exact Hne; auto;
    (destruct (api_cache c !! k) as [row |]; [| cbn; rewrite ?Es, ?lookup_delete_ne by exact Hne; auto]);
    destruct (fresh g2 (created_at row) (ttl_seconds row)); cbn;
    rewrite ?Es; cbn;
    rewrite ?lookup_insert_ne, ?lookup_delete_ne by exact Hne; auto.
Qed.

Lemma put_frame c k k' data ttl tm td :
  k <> k' ->
  _memory_cache (cache_response json_dumps c k data ttl tm td) !! k'
    = _memory_cache c !! k' /\
  api_cache (cache_response json_dumps c k data ttl tm td) !! k'
    = api_cache c !! k' /\
  session_only (cache_response json_dumps c k data ttl tm td) = session_only c.
Proof.
  intros Hne. unfold cache_response, set_memory, db_exec. cbn.
  destruct (session_only c) eqn:Es; cbn;
    rewrite ?lookup_insert_ne by exact Hne; auto.
Qed.

Lemma delete_frame c k k' :
  k <> k' ->
  _memory_cache (delete_cached_response c k) !! k' = _memory_cache c !! k' /\
  api_cache (delete_cached_response c k) !! k' = api_cache c !! k' /\
  session_only (delete_cached_response c k) = session_only c.
Proof.
  intros Hne. unfold delete_cached_response, set_memory, db_exec. cbn.
  destruct (session_only c) eqn:Es; cbn;
    rewrite ?lookup_delete_ne by exact Hne; auto.
Qed.

(** The answer for a key depends on what the tiers hold under it. *)
Lemma get_answer_local c c' k g1 g2 :
  _memory_cache c !! k = _memory_cache c' !! k ->
  api_cache c !! k = api_cache c' !! k ->
  session_only c = session_only c' ->
  (get_cached_response json_loads c k g1 g2).2
  = (get_cached_response json_loads c' k g1 g2).2.
Proof.
  intros Hm Ht Hs. rewrite !get_answer. unfold db_answer.
  rewrite Hm, Ht, Hs. reflexivity.
Qed.

(** X5. Keys are independent: storing, deleting or looking up one key
    never changes what [get_cached_response] answers for another. *)
Theorem keys_are_independent c k k' data ttl (tm td g1 g2 h1 h2 : Q) :
  k <> k' ->
  (get_cached_response json_loads
     (cache_response json_dumps c k data ttl tm td) k' g1 g2).2
    = (get_cached_response json_loads c k' g1 g2).2 /\
  (get_cached_response json_loads (delete_cached_response c k) k' g1 g2).2
    = (get_cached_response json_loads c k' g1 g2).2 /\
  (get_cached_response json_loads
     (get_cached_response json_loads c k h1 h2).1 k' g1 g2).2
    = (get_cached_response json_loads c k' g1 g2).2.
Proof.
  intros Hne.
  destruct (put_frame c k k' data ttl tm td Hne) as (P1 & P2 & P3).
  destruct (delete_frame c k k' Hne) as (D1 & D2 & D3).
  destruct (get_frame c k k' h1 h2 Hne) as (G1 & G2 & G3).
  repeat split; apply get_answer_local; assumption.
Qed.

(** X6. Invalidation: after [delete_cached_response] the key is gone
    from both tiers, so a lookup misses whatever the clock says. *)
Theorem delete_then_miss c k (g1 g2 : Q) :
  _memory_cache (delete_cached_response c k) !! k = None /\
  (session_only c = false -> api_cache (delete_cached_response c k) !! k = None) /\
  (get_cached_response json_loads (delete_cached_response c k) k g1 g2).2 = None.
Proof.
  assert (Hm : _memory_cache (delete_cached_response c k) !! k = None).
  { unfold delete_cached_response, set_memory, db_exec. cbn.
    destruct (session_only c); cbn; apply lookup_delete_eq. }
  assert (Ht : session_only c = false ->
               api_cache (delete_cached_response c k) !! k = None).
  { intros Es. unfold delete_cached_response, set_memory, db_exec. cbn.
    rewrite Es. cbn. apply lookup_delete_eq. }
  split; [exact Hm |]. split; [exact Ht |].
  rewrite get_answer, Hm. unfold db_answer.
  destruct (session_only (delete_cached_response c k)) eqn:Es; [reflexivity |].
  rewrite Ht; [reflexivity |].
  unfold delete_cached_response, set_memory, db_exec in Es. cbn in Es.
  destruct (session_only c); [discriminate | reflexivity].
Qed.

(** X7. Lazy eviction: when [get_cached_response] misses, nothing is
    left under the key in the memory tier, nor in the table when the
    cache is durable (an expired entry is deleted by the lookup that
    finds it). *)
Theorem miss_leaves_nothing c k (g1 g2 : Q) :
  (get_cached_response json_loads c k g1 g2).2 = None ->
  _memory_cache (get_cached_response json_loads c k g1 g2).1 !! k = None /\
  (session_only c = false ->
   api_cache (get_cached_response json_loads c k g1 g2).1 !! k = None).
Proof.
  unfold get_cached_response, delete_cached_response, set_memory, db_exec.
  destruct (_memory_cache c !! k) as [e |] eqn:Em;
    [destruct (fresh g1 (mem_created_at e) (mem_ttl e)); [discriminate |] |];
    cbn; destruct (session_only c) eqn:Es; cbn;
    try (intros _; rewrite ?lookup_delete_eq; split; [assumption || reflexivity | discriminate]);
    (destruct (api_cache c !! k) as [row |] eqn:Er; cbn;
     [destruct (fresh g2 (created_at row) (ttl_seconds row)); cbn;
      [discriminate |] |]);
    intros _; rewrite ?Es; cbn; rewrite ?lookup_delete_eq; auto.
Qed.

(** X8. The durable tier outlives the process: what a durable cache
    stored is served by the cache of the next process on the same
    database, decoded from its JSON text, as long as the row is fresh;
    that lookup loads it into the memory tier, from which later lookups
    are served without a statement on the table. *)
Theorem durable_survives_restart c k data ttl (tm td g1 g2 : Q) :
  let T := Py.or_default ttl Config.CACHE_TTL_SECONDS in
  let next := restart (cache_response json_dumps c k data ttl tm td) in
  let loaded := (get_cached_response json_loads next k g1 g2).1 in
  session_only c = false -> (g2 - td <= inject_Z T)%Q ->
  (get_cached_response json_loads next k g1 g2).2
    = Some (json_loads (json_dumps data)) /\
  db_log loaded = [DbSelect k] /\
  (forall g3 g4, (g3 - td <= inject_Z T)%Q ->
     get_cached_response json_loads loaded k g3 g4
     = (loaded, Some (json_loads (json_dumps data)))).
Proof.
  cbn zeta. intros Es Hf.
  assert (Hrow : api_cache (cache_response json_dumps c k data ttl tm td) !! k
                 = Some (mkDbRow (json_dumps data) td
                           (Py.or_default ttl Config.CACHE_TTL_SECONDS))).
  { unfold cache_response, set_memory, db_exec. cbn. rewrite Es. cbn.
    apply lookup_insert_eq. }
  assert (Hs : session_only (cache_response json_dumps c k data ttl tm td) = false).
  { unfold cache_response, set_memory, db_exec. cbn. rewrite Es. reflexivity. }
  set (T := Py.or_default ttl Config.CACHE_TTL_SECONDS) in *.
  set (stored := cache_response json_dumps c k data ttl tm td) in *.
  set (v := json_loads (json_dumps data)).
  assert (Hget : get_cached_response json_loads (restart stored) k g1 g2
                 = ({| _memory_cache := <[k := mkMemEntry v td T]> ∅;
                       session_only := false;
                       api_cache := api_cache stored;
                       db_log := [DbSelect k] |}, Some v)).
  { apply Qle_bool_iff in Hf.
    unfold restart, init, get_cached_response, set_memory, db_exec.
    cbn. rewrite Hs, lookup_empty. cbn. rewrite Hrow. cbn.
    unfold fresh. rewrite Hf. reflexivity. }
  rewrite Hget. cbn [fst snd db_log].
  split; [reflexivity |]. split; [reflexivity |].
  intros g3 g4 Hf3. apply Qle_bool_iff in Hf3.
  unfold get_cached_response. cbn. rewrite lookup_insert_eq. cbn.
  unfold fresh. rewrite Hf3. reflexivity.
Qed.

Lemma keep_row_fresh (now created : Q) (ttl : Z) :
  Qle_bool now (created + inject_Z ttl) = fresh now created ttl.
Proof.
  unfold fresh.
  destruct (Qle_bool now (created + inject_Z ttl)) eqn:E1,
           (Qle_bool (now - created) (inject_Z ttl)) eqn:E2; try reflexivity.
  - apply Qle_bool_iff in E1.
    assert (H : (now - created <= inject_Z ttl)%Q) by lra.
    apply Qle_bool_iff in H. congruence.
  - apply Qle_bool_iff in E2.
    assert (H : (now <= created + inject_Z ttl)%Q) by lra.
    apply Qle_bool_iff in H. congruence.
Qed.

Lemma fresh_earlier (now g created : Q) (ttl : Z) :
  (now <= g)%Q -> fresh g created ttl = true -> fresh now created ttl = true.
Proof.
  unfold fresh. intros Hg Hf. apply Qle_bool_iff in Hf. apply Qle_bool_iff. lra.
Qed.

Lemma clear_expired_session c now :
  session_only (clear_expired c now) = session_only c.
Proof.
  unfold clear_expired, set_memory, db_exec. cbn.
  destruct (session_only c); reflexivity.
Qed.

Lemma clear_expired_memory c now k :
  _memory_cache (clear_expired c now) !! k
  = match _memory_cache c !! k with
    | Some e =>
        if fresh now (mem_created_at e) (mem_ttl e) then Some e else None
    | None => None
    end.
Proof.
  unfold clear_expired, set_memory, db_exec. cbn.
  assert (H : filter (fun kv : Key * MemEntry Payload =>
                        fresh now (mem_created_at kv.2) (mem_ttl kv.2) = true)
                (_memory_cache c) !! k
              = match _memory_cache c !! k with
                | Some e =>
                    if fresh now (mem_created_at e) (mem_ttl e) then Some e else None
                | None => None
                end).
  { rewrite map_lookup_filter.
    destruct (_memory_cache c !! k) as [e |]; cbn; [| reflexivity].
    destruct (fresh now (mem_created_at e) (mem_ttl e)) eqn:E.
    - rewrite option_guard_True by reflexivity. reflexivity.
    - rewrite option_guard_False by congruence. reflexivity. }
  destruct (session_only c); cbn; exact H.
Qed.

Lemma clear_expired_table c now k :
  session_only c = false ->
  api_cache (clear_expired c now) !! k
  = match api_cache c !! k with
    | Some row =>
        if fresh now (created_at row) (ttl_seconds row) then Some row else None
    | None => None
    end.
Proof.
  intros Es. unfold clear_expired, set_memory, db_exec. cbn. rewrite Es. cbn.
  rewrite map_lookup_filter.
  destruct (api_cache c !! k) as [row |]; cbn; [| reflexivity].
  rewrite <- keep_row_fresh.
  destruct (Qle_bool now (created_at row + inject_Z (ttl_seconds row))) eqn:E.
  - rewrite option_guard_True by reflexivity. reflexivity.
  - rewrite option_guard_False by congruence. reflexivity.
Qed.

(** X9. The sweep is invisible: [clear_expired] at time [now] removes
    only what later lookups would not serve, so every lookup at or
    after [now] answers the same with and without the sweep; and what
    the sweep leaves in the memory tier is fresh at [now]. *)
Theorem sweep_is_invisible c k (now g1 g2 : Q) :
  (now <= g1)%Q -> (now <= g2)%Q ->
  (get_cached_response json_loads (clear_expired c now) k g1 g2).2
    = (get_cached_response json_loads c k g1 g2).2 /\
  (forall e, _memory_cache (clear_expired c now) !! k = Some e ->
     _memory_cache c !! k = Some e /\
     fresh now (mem_created_at e) (mem_ttl e) = true).
Proof.
  intros H1 H2. split.
  - assert (Hdb : db_answer json_loads (clear_expired c now) k g2
                  = db_answer json_loads c k g2).
    { unfold db_answer. rewrite clear_expired_session.
      destruct (session_only c) eqn:Es; [reflexivity |].
      rewrite (clear_expired_table c now k Es).
      destruct (api_cache c !! k) as [row |]; [| reflexivity].
      destruct (fresh now (created_at row) (ttl_seconds row)) eqn:En;
        [reflexivity |].
      destruct (fresh g2 (created_at row) (ttl_seconds row)) eqn:Eg;
        [| reflexivity].
      rewrite (fresh_earlier now g2 _ _ H2 Eg) in En. discriminate. }
    rewrite !get_answer, Hdb, clear_expired_memory.
    destruct (_memory_cache c !! k) as [e |]; [| reflexivity].
    destruct (fresh now (mem_created_at e) (mem_ttl e)) eqn:En; [reflexivity |].
    destruct (fresh g1 (mem_created_at e) (mem_ttl e)) eqn:Eg; [| reflexivity].
    rewrite (fresh_earlier now g1 _ _ H1 Eg) in En. discriminate.
  - intros e. rewrite clear_expired_memory.
    destruct (_memory_cache c !! k) as [e0 |]; [| discriminate].
    destruct (fresh now (mem_created_at e0) (mem_ttl e0)) eqn:En;
      [| discriminate].
    intros [= <-]. auto.
Qed.

End CacheLaws.

Import StorageSamples.

Lemma keys_are_independent_witness :
  (get_cached_response id
     (cache_response id durable_with_entry other_key "[]"%string None 1 1)
     sample_key 2 2).2
  = (get_cached_response id durable_with_entry sample_key 2 2).2.
Proof.
  apply (keys_are_independent id id durable_with_entry other_key sample_key
           "[]"%string None 1 1 2 2 0 0).
  discriminate.
Defined.

Lemma delete_then_miss_witness :
  api_cache (delete_cached_response durable_with_entry sample_key) !! sample_key
  = None.
Proof.
  apply (delete_then_miss id durable_with_entry sample_key 0 0). reflexivity.
Defined.

Lemma miss_leaves_nothing_witness :
  _memory_cache (get_cached_response id durable_with_entry sample_key 301 301).1
    !! sample_key = None /\
  api_cache (get_cached_response id durable_with_entry sample_key 301 301).1
    !! sample_key = None.
Proof.
  destruct (miss_leaves_nothing id durable_with_entry sample_key 301 301)
    as [Hm Ht]; [reflexivity |].
  split; [exact Hm | apply Ht; reflexivity].
Defined.

Lemma durable_survives_restart_witness :
  (get_cached_response id (restart durable_with_entry) sample_key 200 200).2
  = Some "{}"%string.
Proof.
  apply (durable_survives_restart id id empty_durable_cache sample_key
           "{}"%string (Some 300) 0 (1 # 10) 200 200).
  - reflexivity.
  - vm_compute. discriminate.
Defined.

(** In session-only mode the next process finds nothing. *)
Example session_only_forgets :
  (get_cached_response id (restart session_with_entry) sample_key 1 1).2 = None.
Proof. reflexivity. Qed.

Lemma sweep_is_invisible_witness :
  (get_cached_response id (clear_expired durable_with_entry 400) sample_key 400 400).2
  = (get_cached_response id durable_with_entry sample_key 400 400).2.
Proof.
  apply (sweep_is_invisible id durable_with_entry sample_key 400 400 400);
    discriminate.
Defined.

End StorageMore.

Module RetryMore.
Import ApiClient RetryView.

Section Loop.

Context {Payload : Type}.
Variable net : Z -> NetOutcome Payload.

Lemma acquired_app tr tr' : acquired (tr ++ tr') = acquired tr + acquired tr'.
Proof.
  unfold acquired. induction tr as [| e tr IH]; cbn; [reflexivity |].
  destruct e; rewrite IH; lia.
Qed.

(** The three sorts of outcome exclude one another and leave nothing
    out. *)
Lemma outcome_sorts (o : NetOutcome Payload) :
  (is_Some (throttled o) /\ client_error_of o = None /\ final_result o = None) \/
  (throttled o = None /\ is_Some (client_error_of o) /\ final_result o = None) \/
  (throttled o = None /\ client_error_of o = None /\ is_Some (final_result o)).
Proof.
  destruct o as [resp | msg | msg]; cbn; eauto 6.
  destruct (status resp =? 429).
  - destruct (retry_after resp); eauto 6.
  - destruct (400 <=? status resp); eauto 6.
    destruct (body resp); eauto 6.
Qed.

(** A final outcome ends the loop at once. *)
Lemma retry_loop_final fuel retries attempt tr res :
  attempt <= retries -> final_result (net attempt) = Some res ->
  retry_loop net (S fuel) retries attempt tr
  = Some (tr ++ [EvAcquire 1; EvRequest attempt], res).
Proof.
  intros Hle Hf. cbn [retry_loop].
  destruct (Z.leb_spec attempt retries); [| lia].
  unfold final_result in Hf.
  destruct (net attempt) as [resp | msg | msg]; [| discriminate | congruence].
  destruct (status resp =? 429).
  - destruct (retry_after resp); try discriminate. congruence.
  - destruct (Z.leb_spec 400 (status resp)); [discriminate |].
    destruct (Z.leb_spec 500 (status resp)); [lia |].
    destruct (body resp); try discriminate; congruence.
Qed.

(** A retried outcome sends the loop round again, unless it is a
    client error at the last attempt or its backoff overflows. *)
Lemma retry_loop_retried fuel retries attempt tr :
  attempt <= retries -> retried (net attempt) ->
  (attempt < retries /\ attempt <= 1750) \/ is_Some (throttled (net attempt)) ->
  retry_loop net (S fuel) retries attempt tr
  = retry_loop net fuel retries (attempt + 1)
      (tr ++ attempt_events retries attempt (net attempt)).
Proof.
  intros Hle Hr Hmore. cbn [retry_loop]. unfold attempt_events.
  destruct (Z.leb_spec attempt retries); [| lia].
  unfold retried, throttled, client_error_of in *.
  destruct (net attempt) as [resp | msg | msg].
  - destruct (status resp =? 429).
    + destruct (retry_after resp); rewrite <- ?app_assoc; try reflexivity.
      destruct Hr as [[? [=]] | [? [=]]].
    + assert (Hlt : attempt < retries /\ attempt <= 1750)
        by (destruct Hmore as [? | [? [=]]]; assumption).
      destruct (RetrySpec.backoff_is_Some attempt) as [sleep ->]; [lia |].
      destruct (Z.ltb_spec attempt retries); [| lia].
      rewrite <- app_assoc.
      destruct (500 <=? status resp); [reflexivity |].
      destruct (400 <=? status resp); [reflexivity |].
      destruct (body resp); try reflexivity;
        destruct Hr as [[? [=]] | [? [=]]].
  - assert (Hlt : attempt < retries /\ attempt <= 1750)
      by (destruct Hmore as [? | [? [=]]]; assumption).
    destruct (RetrySpec.backoff_is_Some attempt) as [sleep ->]; [lia |].
    destruct (Z.ltb_spec attempt retries); [| lia].
    rewrite <- app_assoc. reflexivity.
  - destruct Hr as [[? [=]] | [? [=]]].
Qed.

(** A client error at the last attempt raises "Failed after", unless
    it is a server error whose warning overflows. *)
Lemma retry_loop_last_error fuel retries tr e :
  client_error_of (net retries) = Some e ->
  (server_error (net retries) = true -> retries <= 1750) ->
  retry_loop net (S fuel) retries retries tr
  = Some (tr ++ attempt_events retries retries (net retries),
          Raise (RuntimeError_FailedAfter (retries + 1) e)).
Proof.
  intros He Hs. cbn [retry_loop]. unfold attempt_events.
  destruct (Z.leb_spec retries retries); [| lia].
  destruct (Z.ltb_spec retries retries); [lia |].
  unfold client_error_of in He. unfold throttled. unfold server_error in Hs.
  destruct (net retries) as [resp | msg | msg]; [| | discriminate].
  - destruct (status resp =? 429); [discriminate |].
    destruct (Z.leb_spec 500 (status resp)).
    + destruct (RetrySpec.backoff_is_Some retries) as [sleep ->];
        [apply Hs; reflexivity |].
      destruct (Z.leb_spec 400 (status resp)); [| lia].
      injection He as <-. rewrite app_nil_r. reflexivity.
    + destruct (400 <=? status resp).
      * injection He as <-. rewrite app_nil_r. reflexivity.
      * destruct (body resp); try discriminate.
        injection He as <-. rewrite app_nil_r. reflexivity.
  - injection He as <-. rewrite app_nil_r. reflexivity.
Qed.

(** Past attempt 1750 the power [backoff_factor ** attempt] is too
    large for a float: a client error with an attempt left, or a
    server error, ends the request with [OverflowError]. *)
Lemma retry_loop_overflow fuel retries attempt tr :
  attempt <= retries -> 1750 < attempt ->
  is_Some (client_error_of (net attempt)) ->
  attempt < retries \/ server_error (net attempt) = true ->
  retry_loop net (S fuel) retries attempt tr
  = Some (tr ++ [EvAcquire 1; EvRequest attempt], Raise OverflowError).
Proof.
  intros Hle Hbig [e He] Hmore. cbn [retry_loop].
  rewrite RetrySpec.backoff_overflow by lia.
  destruct (Z.leb_spec attempt retries); [| lia].
  unfold client_error_of in He. unfold server_error in Hmore.
  destruct (net attempt) as [resp | msg | msg]; [| | discriminate].
  - destruct (status resp =? 429); [discriminate |].
    destruct (500 <=? status resp); [reflexivity |].
    assert (Hlt : attempt < retries) by (destruct Hmore as [? | [=]]; assumption).
    destruct (Z.ltb_spec attempt retries); [| lia].
    destruct (400 <=? status resp); [reflexivity |].
    destruct (body resp); try discriminate. reflexivity.
  - assert (Hlt : attempt < retries) by (destruct Hmore as [? | [=]]; assumption).
    destruct (Z.ltb_spec attempt retries); [| lia]. reflexivity.
Qed.

Lemma retry_loop_exit fuel retries attempt tr :
  retries < attempt ->
  retry_loop net (S fuel) retries attempt tr
  = Some (tr, Raise (RuntimeError_MaxRetries retries)).
Proof.
  intros Hlt. cbn [retry_loop].
  destruct (Z.leb_spec attempt retries); [lia | reflexivity].
Qed.

(** One attempt's events hold one call and one token. *)
Lemma attempt_events_count retries attempt (o : NetOutcome Payload) :
  network_attempts (attempt_events retries attempt o) = 1%nat /\
  acquired (attempt_events retries attempt o) = 1.
Proof.
  unfold attempt_events, backoff.
  repeat case_match; simplify_eq; cbn; split; reflexivity.
Qed.






(** What one pass of the loop does, by the outcome of its call: it
    ends the request, after the call, or goes round again, after the
    events of the attempt. *)
Lemma retry_loop_step fuel retries attempt tr :
  attempt <= retries ->
  (exists res,
     retry_loop net (S fuel) retries attempt tr
     = Some (tr ++ [EvAcquire 1; EvRequest attempt], res) /\
     (forall data, res = Return data ->
        final_result (net attempt) = Some (Return data))) \/
  retry_loop net (S fuel) retries attempt tr
  = retry_loop net fuel retries (attempt + 1)
      (tr ++ attempt_events retries attempt (net attempt)).
Proof.
  intros Hle.
  destruct (outcome_sorts (net attempt))
    as [(Ht & He & _) | [(Ht & He & _) | (_ & _ & [fr Hf])]].
  - right. apply retry_loop_retried; [exact Hle | left; exact Ht | right; exact Ht].
  - destruct (Z.le_gt_cases attempt 1750) as [Hsmall | Hbig].
    + destruct (Z.eq_dec attempt retries) as [-> | Hne].
      * left. destruct He as [e He]. eexists. split.
        -- rewrite (retry_loop_last_error fuel retries tr e He) by (intros _; lia).
           unfold attempt_events. rewrite Ht.
           destruct (Z.ltb_spec retries retries); [lia |]. reflexivity.
        -- intros data [=].
      * right. apply retry_loop_retried; [exact Hle | right; exact He | left; lia].
    + destruct (Z.eq_dec attempt retries) as [-> | Hne].
      * destruct (server_error (net retries)) eqn:Es.
        -- left. eexists. split.
           ++ apply retry_loop_overflow; [lia | lia | exact He | right; exact Es].
           ++ intros data [=].
        -- left. destruct He as [e He]. eexists. split.
           ++ rewrite (retry_loop_last_error fuel retries tr e He) by congruence.
              unfold attempt_events. rewrite Ht.
              destruct (Z.ltb_spec retries retries); [lia |]. reflexivity.
           ++ intros data [=].
      * left. eexists. split.
        -- apply retry_loop_overflow; [lia | lia | exact He | left; lia].
        -- intros data [=].
  - left. exists fr. split; [apply retry_loop_final; assumption |].
    intros data ->. exact Hf.
Qed.

(** What the loop adds to the trace: at most one call per attempt
    left, one token for each call. *)
Lemma retry_loop_bounds fuel : forall retries attempt tr tr' res,
  retry_loop net fuel retries attempt tr = Some (tr', res) ->
  exists ev,
    tr' = tr ++ ev /\
    (network_attempts ev <= Z.to_nat (retries + 1 - attempt))%nat /\
    acquired ev = Z.of_nat (network_attempts ev).
Proof.
  induction fuel as [| fuel IH]; intros retries attempt tr tr' res Hrun;
    [discriminate |].
  destruct (Z.le_gt_cases attempt retries) as [Hle | Hgt].
  - destruct (retry_loop_step fuel retries attempt tr Hle)
      as [(res0 & Hend & _) | Hgo]; rewrite ?Hend, ?Hgo in Hrun.
    + injection Hrun as <- <-. eexists. split; [reflexivity |].
      cbn. split; lia.
    + destruct (IH _ _ _ _ _ Hrun) as (ev & -> & Hn & Ha).
      exists (attempt_events retries attempt (net attempt) ++ ev).
      rewrite app_assoc. split; [reflexivity |].
      destruct (attempt_events_count retries attempt (net attempt)) as [H1 H2].
      rewrite RetrySpec.network_attempts_app, acquired_app, Ha, H1, H2.
      split; lia.
  - rewrite retry_loop_exit in Hrun by lia. injection Hrun as <- <-.
    exists []. rewrite app_nil_r. cbn. split; [reflexivity | split; lia].
Qed.

(** X12. Whatever the network does, a request makes at most
    [retries + 1] network calls, and acquires exactly one token from
    the rate limiter for every call it makes. *)
Theorem calls_are_bounded (retries : option Z) (tr : list Event)
    (res : Result Payload) :
  _make_request_internal net retries = Some (tr, res) ->
  (network_attempts tr <= Z.to_nat (effective_retries retries + 1))%nat /\
  acquired tr = Z.of_nat (network_attempts tr).
Proof.
  unfold _make_request_internal. intros Hrun.
  destruct (retry_loop_bounds _ _ _ _ _ _ Hrun) as (ev & -> & Hn & Ha).
  cbn [app]. rewrite Z.sub_0_r in Hn. auto.
Qed.

Lemma retry_loop_returns fuel : forall retries attempt tr tr' data,
  retry_loop net fuel retries attempt tr = Some (tr', Return data) ->
  exists a, attempt <= a <= retries /\
    final_result (net a) = Some (Return data) /\
    network_attempts tr'
    = (network_attempts tr + Z.to_nat (a + 1 - attempt))%nat.
Proof.
  induction fuel as [| fuel IH]; intros retries attempt tr tr' data Hrun;
    [discriminate |].
  destruct (Z.le_gt_cases attempt retries) as [Hle | Hgt].
  - destruct (retry_loop_step fuel retries attempt tr Hle)
      as [(res0 & Hend & Hdata) | Hgo]; rewrite ?Hend, ?Hgo in Hrun.
    + injection Hrun as <- ->. exists attempt. split; [lia |].
      split; [apply Hdata; reflexivity |].
      rewrite RetrySpec.network_attempts_app. cbn. lia.
    + destruct (IH _ _ _ _ _ Hrun) as (a & Ha & Hf & Hn).
      exists a. split; [lia |]. split; [exact Hf |].
      destruct (attempt_events_count retries attempt (net attempt)) as [H1 _].
      rewrite Hn, RetrySpec.network_attempts_app, H1. lia.
  - rewrite retry_loop_exit in Hrun by lia. discriminate.
Qed.

(** X13. Data comes from a good response only: when a request returns
    data, its last network call, within the bound, was answered with a
    status below 400 and that data as JSON body. *)
Theorem returned_data_was_served (retries : option Z) (tr : list Event)
    (data : Payload) :
  _make_request_internal net retries = Some (tr, Return data) ->
  exists (a : Z) (resp : Response Payload),
    0 <= a <= effective_retries retries /\
    net a = NetResponse resp /\ status resp < 400 /\
    body resp = BodyJson data /\
    network_attempts tr = Z.to_nat (a + 1).
Proof.
  unfold _make_request_internal. intros Hrun.
  destruct (retry_loop_returns _ _ _ _ _ _ Hrun) as (a & Ha & Hf & Hn).
  unfold final_result in Hf.
  destruct (net a) as [resp | msg | msg] eqn:Hnet; try discriminate.
  exists a, resp. split; [exact Ha |]. split; [exact Hnet |].
  destruct (Z.eqb_spec (status resp) 429) as [E | E].
  { destruct (retry_after resp); discriminate. }
  destruct (Z.leb_spec 400 (status resp)); [discriminate |].
  destruct (body resp); try discriminate. injection Hf as ->.
  rewrite Hn, Z.sub_0_r. cbn. auto.
Qed.

End Loop.

Import ApiSamples.



Lemma calls_are_bounded_witness :
  (network_attempts flaky_trace <= 4)%nat /\ acquired flaky_trace = 3.
Proof.
  apply (calls_are_bounded flaky None flaky_trace (Return "{}"%string)).
  reflexivity.
Defined.

Lemma returned_data_was_served_witness :
  exists (a : Z) (resp : Response string),
    0 <= a <= 3 /\ flaky a = NetResponse resp /\ status resp < 400 /\
    body resp = BodyJson "{}"%string /\
    network_attempts flaky_trace = Z.to_nat (a + 1).
Proof.
  apply (returned_data_was_served flaky None flaky_trace "{}"%string).
  reflexivity.
Defined.

End RetryMore.

Module InflightMore.
Import ApiClient Inflight InflightView.

#[local] Arguments _make_request_internal : simpl never.
#[local] Arguments _request_key : simpl never.
#[local] Arguments call_key : simpl never.

Section Registry.

Context {Payload : Type}.
Implicit Types (w : World Payload) (t : Task Payload).

Lemma lookup_set_call (l : list (Call Payload)) (c i : nat) call new call' :
  l !! c = Some call ->
  <[c := new]> l !! i = Some call' ->
  (i = c /\ call' = new) \/ (i <> c /\ l !! i = Some call').
Proof.
  intros Hc Hi. destruct (decide (i = c)) as [-> | Hne].
  - left. split; [reflexivity |].
    rewrite list_lookup_insert_eq in Hi by (eapply lookup_lt_Some; eassumption).
    congruence.
  - right. split; [exact Hne |]. rewrite list_lookup_insert_ne in Hi by congruence.
    exact Hi.
Qed.

Lemma registry_inv_step w s w' :
  registry_inv w -> step w s = Some w' -> registry_inv w'.
Proof.
  unfold registry_inv, registry_owned, results_from_tasks, tasks_sound.
  intros (Hown & Hres & Hsound) Hstep.
  destruct s as [c | tid net | c]; cbn [step] in Hstep.
  - (* Enter *)
    destruct (calls w !! c) as [call |] eqn:Hc; [| discriminate].
    destruct (call_state call) eqn:Hst; try discriminate.
    assert (Hkeep_own : forall key tid i0 call0,
              calls w !! i0 = Some call0 -> call_state call0 = AwaitingOwn tid ->
              call_key call0 = key -> forall st,
              exists (i : nat) call1,
                <[c := set_state call st]> (calls w) !! i = Some call1 /\
                call_state call1 = AwaitingOwn tid /\ call_key call1 = key).
    { intros key tid i0 call0 Hi0 Hs0 Hk0 st. exists i0, call0.
      split; [| auto]. rewrite list_lookup_insert_ne; [exact Hi0 |].
      intros ->. congruence. }
    assert (Hkeep_res : forall st, (forall r, st <> Finished r) ->
              forall (tsk : list (Task Payload)),
              (forall (tid : nat) t, tasks w !! tid = Some t -> tsk !! tid = Some t) ->
              forall (i : nat) call1 r,
                <[c := set_state call st]> (calls w) !! i = Some call1 ->
                call_state call1 = Finished r ->
                exists (tid : nat) t tr, tsk !! tid = Some t /\ task_done t = Some (tr, r)).
    { intros st Hnf tsk Htsk i call1 r Hi Hf.
      destruct (lookup_set_call _ _ _ _ _ _ Hc Hi) as [[-> ->] | [Hne Hi']].
      - cbn in Hf. exfalso. exact (Hnf r Hf).
      - destruct (Hres _ _ _ Hi' Hf) as (tid & t & tr & Ht & Hd).
        exists tid, t, tr. auto. }
    destruct (_inflight_requests w !! call_key call) as [tid |] eqn:Hreg;
      injection Hstep as <-; (split; [| split]); cbn.
    + intros key tid' Hk. destruct (Hown _ _ Hk) as (i0 & call0 & H1 & H2 & H3).
      eapply Hkeep_own; eassumption.
    + apply Hkeep_res; [discriminate | auto].
    + exact Hsound.
    + intros key tid' Hk.
      destruct (decide (call_key call = key)) as [<- | Hne].
      * rewrite lookup_insert_eq in Hk. injection Hk as <-.
        exists c, (set_state call (AwaitingOwn (length (tasks w)))).
        split; [| auto].
        apply list_lookup_insert_eq. eapply lookup_lt_Some; eassumption.
      * rewrite lookup_insert_ne in Hk by exact Hne.
        destruct (Hown _ _ Hk) as (i0 & call0 & H1 & H2 & H3).
        eapply Hkeep_own; eassumption.
    + apply Hkeep_res; [discriminate |].
      intros tid t Ht. apply lookup_app_l_Some. exact Ht.
    + intros tid t Ht. apply lookup_app_Some in Ht as [Ht | [_ Ht]].
      * eapply Hsound; eassumption.
      * destruct (tid - length (tasks w))%nat; [| discriminate].
        injection Ht as <-. intros o. discriminate.
  - (* Complete *)
    destruct (tasks w !! tid) as [t |] eqn:Ht; [| discriminate].
    destruct (task_done t) eqn:Hd; [discriminate |].
    destruct (_make_request_internal net (task_retries t)) as [outcome |] eqn:Hrun;
      [| discriminate].
    injection Hstep as <-. split; [| split]; cbn.
    + exact Hown.
    + intros i call r Hi Hf.
      destruct (Hres _ _ _ Hi Hf) as (tid' & t' & tr & Ht' & Hd').
      exists tid', t', tr. split; [| exact Hd'].
      rewrite list_lookup_insert_ne; [exact Ht' |]. intros ->. congruence.
    + intros tid' t' Ht'.
      destruct (decide (tid' = tid)) as [-> | Hne].
      * rewrite list_lookup_insert_eq in Ht' by (eapply lookup_lt_Some; eassumption).
        injection Ht' as <-. intros o [= <-]. exists net. exact Hrun.
      * rewrite list_lookup_insert_ne in Ht' by congruence.
        eapply Hsound; eassumption.
  - (* Resume *)
    destruct (calls w !! c) as [call |] eqn:Hc; [| discriminate].
    assert (Hkeep_own : forall key tid,
              (call_state call = AwaitingOwn tid -> call_key call <> key) ->
              forall i0 call0,
              calls w !! i0 = Some call0 -> call_state call0 = AwaitingOwn tid ->
              call_key call0 = key -> forall st,
              exists (i : nat) call1,
                <[c := set_state call st]> (calls w) !! i = Some call1 /\
                call_state call1 = AwaitingOwn tid /\ call_key call1 = key).
    { intros key tid Hnot i0 call0 Hi0 Hs0 Hk0 st. exists i0, call0.
      split; [| auto]. rewrite list_lookup_insert_ne; [exact Hi0 |].
      intros ->. assert (call0 = call) as -> by congruence. exact (Hnot Hs0 Hk0). }
    assert (Hkeep_res : forall tid outcome,
              tasks w !! tid ≫= task_done = Some outcome ->
              forall (i : nat) call1 r,
                <[c := set_state call (Finished outcome.2)]> (calls w) !! i = Some call1 ->
                call_state call1 = Finished r ->
                exists (tid : nat) t tr,
                  tasks w !! tid = Some t /\ task_done t = Some (tr, r)).
    { intros tid outcome Ho i call1 r Hi Hf.
      destruct (lookup_set_call _ _ _ _ _ _ Hc Hi) as [[-> ->] | [Hne Hi']].
      - cbn in Hf. injection Hf as <-.
        destruct (tasks w !! tid) as [t |] eqn:Ht; [| discriminate]. cbn in Ho.
        exists tid, t, outcome.1. split; [exact Ht |].
        rewrite Ho. destruct outcome; reflexivity.
      - eapply Hres; eassumption. }
    destruct (call_state call) as [| tid | tid |] eqn:Hst; try discriminate;
      (destruct (tasks w !! tid ≫= task_done) as [outcome |] eqn:Ho;
       [| discriminate]);
      injection Hstep as <-; (split; [| split]); cbn.
    + intros key tid' Hk. destruct (Hown _ _ Hk) as (i0 & call0 & H1 & H2 & H3).
      eapply Hkeep_own; try eassumption. discriminate.
    + eapply Hkeep_res; eassumption.
    + exact Hsound.
    + intros key tid' Hk.
      destruct (decide (call_key call = key)) as [<- | Hne].
      * rewrite lookup_delete_eq in Hk. discriminate.
      * rewrite lookup_delete_ne in Hk by exact Hne.
        destruct (Hown _ _ Hk) as (i0 & call0 & H1 & H2 & H3).
        eapply Hkeep_own; try eassumption. intros _. exact Hne.
    + eapply Hkeep_res; eassumption.
    + exact Hsound.
Qed.

Lemma registry_inv_run steps : forall w w',
  registry_inv w -> run w steps = Some w' -> registry_inv w'.
Proof.
  induction steps as [| s steps IH]; intros w w' Hw Hrun; cbn [run] in Hrun.
  - injection Hrun as <-. exact Hw.
  - destruct (step w s) as [w1 |] eqn:Hs; [| discriminate].
    eapply IH; [eapply registry_inv_step; eassumption | exact Hrun].
Qed.

Lemma registry_inv_fresh (cs : list (Call Payload)) :
  registry_inv (fresh_world cs).
Proof.
  split; [| split].
  - intros key tid Hk. cbn in Hk. rewrite lookup_empty in Hk. discriminate.
  - intros i call r Hi Hf. cbn in Hi. rewrite list_lookup_fmap in Hi.
    destruct (cs !! i); [| discriminate]. injection Hi as <-. discriminate.
  - intros tid t Ht. cbn in Ht. rewrite lookup_nil in Ht. discriminate.
Qed.

(** X14. For any number of calls of [_make_request], with any keys and
    under any schedule: when all calls are over the registry of
    in-flight requests is empty again (every key is popped by the call
    that registered it), and what each call returned or raised is the
    outcome of one run of [_make_request_internal] by one of the
    tasks. *)
Theorem registry_is_released (cs : list (Call Payload))
    (steps : list (Step Payload)) (w : World Payload) :
  run (fresh_world cs) steps = Some w ->
  (Forall is_finished (calls w) -> _inflight_requests w = ∅) /\
  (forall (i : nat) r, call_result w i = Some r ->
     exists (tid : nat) t tr net,
       tasks w !! tid = Some t /\ task_done t = Some (tr, r) /\
       _make_request_internal net (task_retries t) = Some (tr, r)).
Proof.
  intros Hrun.
  destruct (registry_inv_run steps _ _ (registry_inv_fresh cs) Hrun)
    as (Hown & Hres & Hsound).
  split.
  - intros Hfin. apply map_empty. intros key.
    destruct (_inflight_requests w !! key) as [tid |] eqn:Hk; [| reflexivity].
    destruct (Hown _ _ Hk) as (i & call & Hi & Hst & _).
    rewrite Forall_forall in Hfin.
    destruct (Hfin call) as [r Hr]; [eapply list_elem_of_lookup_2; eassumption |].
    congruence.
  - intros i r. unfold call_result.
    destruct (calls w !! i) as [call |] eqn:Hi; [| discriminate].
    destruct (call_state call) eqn:Hst; try discriminate. intros [= <-].
    destruct (Hres _ _ _ Hi Hst) as (tid & t & tr & Ht & Hd).
    destruct (Hsound _ _ Ht _ Hd) as [net Hnet].
    exists tid, t, tr, net. auto.
Qed.

End Registry.

Import ApiSamples.

Lemma registry_is_released_witness :
  exists w,
    run (fresh_world [sample_call_1; sample_call_2; sample_call_3])
      three_calls_schedule = Some w /\
    _inflight_requests w = ∅ /\
    length (tasks w) = 2%nat.
Proof.
  destruct (run (fresh_world [sample_call_1; sample_call_2; sample_call_3])
              three_calls_schedule) as [w |] eqn:Hrun;
    [| vm_compute in Hrun; discriminate].
  exists w. split; [reflexivity |].
  destruct (registry_is_released _ _ _ Hrun) as [Hempty _].
  split.
  - apply Hempty. injection Hrun as <-.
    repeat constructor; eexists; reflexivity.
  - injection Hrun as <-. reflexivity.
Defined.

End InflightMore.

Module FetchSpec.
Import Storage ApiClient Fetch.
Import Stdlib.Strings.Ascii.

Section FetchLaws.

Context {Payload : Type}.
Variable json_dumps : Payload -> string.
Variable json_loads : string -> Payload.
Variable truthy : Payload -> bool.
Implicit Types (c : Cache Payload) (key : Key) (clk : FetchClock).

(** [_make_request] with nothing in flight: the call registers its
    task, the task runs [_make_request_internal], the call hands on its
    outcome and pops the key. This is the request of
    [request_and_store]. *)
Lemma lone_request (call : Inflight.Call Payload) net outcome :
  _make_request_internal net (Inflight.call_retries call) = Some outcome ->
  exists w,
    Inflight.run (InflightView.fresh_world [call])
      [Inflight.Enter 0; Inflight.Complete 0 net; Inflight.Resume 0] = Some w /\
    Inflight.call_result w 0 = Some outcome.2 /\
    Inflight._inflight_requests w = ∅ /\
    Inflight.network_calls w = network_attempts outcome.1.
Proof.
  intros E. eexists. split; [| split; [| split]].
  - unfold InflightView.fresh_world, Inflight.run, Inflight.step.
    cbn [Inflight.calls Inflight.tasks Inflight._inflight_requests
         fmap list_fmap lookup list_lookup Inflight.call_state
         Inflight.set_state Inflight.call_retries length app
         Inflight.task_done Inflight.task_retries list_insert insert].
    rewrite lookup_empty.
    cbn [Inflight.calls Inflight.tasks Inflight._inflight_requests
         fmap list_fmap lookup list_lookup Inflight.call_state
         Inflight.set_state Inflight.call_retries length app
         Inflight.task_done Inflight.task_retries list_insert insert].
    rewrite E.
    cbn [Inflight.calls Inflight.tasks Inflight._inflight_requests
         fmap list_fmap lookup list_lookup Inflight.call_state
         Inflight.set_state Inflight.call_retries length app
         Inflight.task_done Inflight.task_retries list_insert insert
         mbind option_bind].
    reflexivity.
  - reflexivity.
  - cbn [Inflight._inflight_requests].
    change (Inflight.call_key
              (Inflight.set_state (Inflight.set_state call Inflight.NotStarted)
                 (Inflight.AwaitingOwn 0)))
      with (Inflight.call_key (Inflight.set_state call Inflight.NotStarted)).
    rewrite delete_insert_eq. apply delete_empty.
  - unfold Inflight.network_calls, Inflight.task_attempts. cbn. lia.
Qed.

(** What the request part returns is what [_make_request_internal]
    returns. *)
Lemma request_and_store_outcome c key ttl net clk :
  (request_and_store json_dumps c key ttl net clk).2
  = _make_request_internal net None.
Proof.
  unfold request_and_store.
  destruct (_make_request_internal net None) as [[tr [response | e]] |];
    reflexivity.
Qed.

(** The request part changes the cache only by storing what it
    returns. *)
Lemma request_and_store_cache c key ttl net clk c' tr r :
  request_and_store json_dumps c key ttl net clk = (c', Some (tr, r)) ->
  c' = match r with
       | Return response =>
           cache_response json_dumps c key response ttl (put_mem clk) (put_db clk)
       | Raise _ => c
       end.
Proof.
  unfold request_and_store.
  destruct (_make_request_internal net None) as [[tr0 [response | e]] |];
    intros H; simplify_eq; reflexivity.
Qed.

(** The two ways through a fetch. *)
Lemma cached_fetch_cases c key ttl net clk :
  let got := get_cached_response json_loads c key (get_mem clk) (get_db clk) in
  (exists data, got.2 = Some data /\ truthy data = true /\
     cached_fetch json_dumps json_loads truthy c key ttl net clk
     = (got.1, Some ([], Return data))) \/
  ((forall data, got.2 = Some data -> truthy data = false) /\
   cached_fetch json_dumps json_loads truthy c key ttl net clk
   = request_and_store json_dumps got.1 key ttl net clk).
Proof.
  cbn zeta. unfold cached_fetch.
  destruct (get_cached_response json_loads c key (get_mem clk) (get_db clk))
    as [c1 [data |]]; cbn [fst snd].
  - destruct (truthy data) eqn:Et.
    + left. exists data. auto.
    + right. split; [| reflexivity]. intros d [= <-]. exact Et.
  - right. split; [| reflexivity]. intros d [=].
Qed.

(** A fetch that made a network call and returned has stored what it
    returned. *)
Lemma cached_fetch_stored c key ttl net clk c' tr response :
  cached_fetch json_dumps json_loads truthy c key ttl net clk
    = (c', Some (tr, Return response)) ->
  (0 < network_attempts tr)%nat ->
  _memory_cache c' !! key
  = Some (mkMemEntry response (put_mem clk)
            (Py.or_default ttl Config.CACHE_TTL_SECONDS)).
Proof.
  intros H Hn.
  destruct (cached_fetch_cases c key ttl net clk)
    as [(data & _ & _ & E) | [_ E]]; rewrite E in H.
  - simplify_eq. cbn in Hn. lia.
  - apply request_and_store_cache in H. subst c'.
    rewrite StorageSpec.put_memory. apply lookup_insert_eq.
Qed.

(** A lookup that misses is followed by misses, whatever the time. *)
Lemma miss_then_miss c key (g1 g2 h1 h2 : Q) :
  (get_cached_response json_loads c key g1 g2).2 = None ->
  (get_cached_response json_loads
     (get_cached_response json_loads c key g1 g2).1 key h1 h2).2 = None.
Proof.
  intros Hmiss.
  rewrite StorageMore.get_answer.
  revert Hmiss.
  unfold get_cached_response, StorageView.db_answer, delete_cached_response,
    set_memory, db_exec.
  destruct (_memory_cache c !! key) as [e |] eqn:Em;
    [destruct (fresh g1 (mem_created_at e) (mem_ttl e)); [discriminate |] |];
    cbn; destruct (session_only c) eqn:Es; cbn;
    rewrite ?lookup_delete_eq, ?Em, ?Es; cbn; try reflexivity;
    (destruct (api_cache c !! key) as [row |] eqn:Er; cbn;
     [destruct (fresh g2 (created_at row) (ttl_seconds row)); cbn;
      [discriminate |] |]);
    intros _; rewrite ?lookup_delete_eq, ?Em, ?Es, ?Er; cbn;
    rewrite ?lookup_delete_eq; reflexivity.
Qed.

(** What a fetch within the TTL of a stored answer finds, and what it
    does with it. *)
Lemma stored_answer_found c key ttl net clk c' tr response clk' :
  cached_fetch json_dumps json_loads truthy c key ttl net clk
    = (c', Some (tr, Return response)) ->
  (0 < network_attempts tr)%nat ->
  (get_mem clk' - put_mem clk
     <= inject_Z (Py.or_default ttl Config.CACHE_TTL_SECONDS))%Q ->
  get_cached_response json_loads c' key (get_mem clk') (get_db clk')
  = (c', Some response).
Proof.
  intros H Hn Hage.
  pose proof (cached_fetch_stored _ _ _ _ _ _ _ _ H Hn) as Hmem.
  apply (StorageSpec.get_memory_hit json_loads c' key _ _ _ Hmem).
  apply StorageSpec.fresh_true. exact Hage.
Qed.

Lemma stored_answer_served c key ttl net clk c' tr response ttl' net' clk' :
  cached_fetch json_dumps json_loads truthy c key ttl net clk
    = (c', Some (tr, Return response)) ->
  (0 < network_attempts tr)%nat ->
  (get_mem clk' - put_mem clk
     <= inject_Z (Py.or_default ttl Config.CACHE_TTL_SECONDS))%Q ->
  truthy response = true ->
  cached_fetch json_dumps json_loads truthy c' key ttl' net' clk'
  = (c', Some ([], Return response)).
Proof.
  intros H Hn Hage Ht.
  pose proof (stored_answer_found _ _ _ _ _ _ _ _ _ H Hn Hage) as Hget.
  destruct (cached_fetch_cases c' key ttl' net' clk')
    as [(data & Ed & _ & E) | [Hf _]]; rewrite Hget in *; cbn [fst snd] in *.
  - injection Ed as <-. exact E.
  - rewrite (Hf response eq_refl) in Ht. discriminate.
Qed.

Lemma stored_answer_refetched c key ttl net clk c' tr response ttl' net' clk' :
  cached_fetch json_dumps json_loads truthy c key ttl net clk
    = (c', Some (tr, Return response)) ->
  (0 < network_attempts tr)%nat ->
  (get_mem clk' - put_mem clk
     <= inject_Z (Py.or_default ttl Config.CACHE_TTL_SECONDS))%Q ->
  truthy response = false ->
  (cached_fetch json_dumps json_loads truthy c' key ttl' net' clk').2
  = _make_request_internal net' None.
Proof.
  intros H Hn Hage Ht.
  pose proof (stored_answer_found _ _ _ _ _ _ _ _ _ H Hn Hage) as Hget.
  destruct (cached_fetch_cases c' key ttl' net' clk')
    as [(data & Ed & Et & _) | [_ E]]; rewrite Hget in *; cbn [fst snd] in *.
  - injection Ed as <-. congruence.
  - rewrite E. apply request_and_store_outcome.
Qed.

(** X15. The cache in front of the API. When a fetch has gone to the
    network and returned a payload, a fetch for the same cache key that
    checks the cache within the entry's TTL (the TTL of the storing
    fetch, or 3600 s when that is [None] or [0]) is decided by the
    truth value of the payload. A truthy payload is returned from the
    cache: no rate-limiter token, no network call, no change to the
    cache, whatever the API would answer now and whatever TTL this
    fetch carries. A falsy payload (an empty object) is stored all the
    same but never served: the fetch goes to the network again and
    returns or raises what the request does. *)
Theorem second_fetch_within_ttl c key ttl net clk c' tr response
    ttl' net' clk' :
  cached_fetch json_dumps json_loads truthy c key ttl net clk
    = (c', Some (tr, Return response)) ->
  (0 < network_attempts tr)%nat ->
  (get_mem clk' - put_mem clk
     <= inject_Z (Py.or_default ttl Config.CACHE_TTL_SECONDS))%Q ->
  if truthy response
  then cached_fetch json_dumps json_loads truthy c' key ttl' net' clk'
       = (c', Some ([], Return response))
  else (cached_fetch json_dumps json_loads truthy c' key ttl' net' clk').2
       = _make_request_internal net' None.
Proof.
  intros H Hn Hage.
  destruct (truthy response) eqn:Et.
  - exact (stored_answer_served _ _ _ _ _ _ _ _ _ _ _ H Hn Hage Et).
  - exact (stored_answer_refetched _ _ _ _ _ _ _ _ _ _ _ H Hn Hage Et).
Qed.

(** X16. Failures are not cached. When a fetch misses the cache and its
    request raises, the cache is left as the lookup left it, with
    nothing under the key: every later fetch for that key, at any time,
    goes to the network again and returns or raises what that request
    does. *)
Theorem failed_fetch_caches_nothing c key ttl net clk c' tr e :
  (get_cached_response json_loads c key (get_mem clk) (get_db clk)).2 = None ->
  cached_fetch json_dumps json_loads truthy c key ttl net clk
    = (c', Some (tr, Raise e)) ->
  c' = (get_cached_response json_loads c key (get_mem clk) (get_db clk)).1 /\
  forall ttl' net' clk',
    (cached_fetch json_dumps json_loads truthy c' key ttl' net' clk').2
    = _make_request_internal net' None.
Proof.
  intros Hmiss H.
  assert (Hc : c' = (get_cached_response json_loads c key (get_mem clk) (get_db clk)).1).
  { destruct (cached_fetch_cases c key ttl net clk)
      as [(data & Ed & _) | [_ E]]; [congruence |].
    rewrite E in H. apply request_and_store_cache in H. exact H. }
  split; [exact Hc |].
  intros ttl' net' clk'.
  pose proof (miss_then_miss c key _ _ (get_mem clk') (get_db clk') Hmiss) as Hm.
  rewrite <- Hc in Hm.
  destruct (cached_fetch_cases c' key ttl' net' clk')
    as [(data & Ed & _) | [_ E]]; [congruence |].
  rewrite E. apply request_and_store_outcome.
Qed.

(** X17. The attack log is cached under the one key
    [("faction", "attacks")], which leaves [limit] out: once a fetch
    has brought a truthy log from the API, every [fetch_faction_attacks]
    of the next 300 seconds returns that log, whatever [limit] it asks
    for and whatever the API would answer for that [limit]. *)
Theorem attacks_cache_ignores_limit c server limit clk c' tr response
    server' limit' clk' :
  fetch_faction_attacks json_dumps json_loads truthy c server limit clk
    = (c', Some (tr, Return response)) ->
  (0 < network_attempts tr)%nat ->
  truthy response = true ->
  (get_mem clk' - put_mem clk <= 300)%Q ->
  fetch_faction_attacks json_dumps json_loads truthy c' server' limit' clk'
  = (c', Some ([], Return response)).
Proof.
  unfold fetch_faction_attacks. intros H Hn Ht Hage.
  exact (stored_answer_served _ _ _ _ _ _ _ _ _ _ _ H Hn Hage Ht).
Qed.

(** What a fetch returns or raises depends on the cache only through
    the answer of the lookup. *)
Lemma cached_fetch_outcome_local c1 c2 key ttl net clk :
  (get_cached_response json_loads c1 key (get_mem clk) (get_db clk)).2
  = (get_cached_response json_loads c2 key (get_mem clk) (get_db clk)).2 ->
  (cached_fetch json_dumps json_loads truthy c1 key ttl net clk).2
  = (cached_fetch json_dumps json_loads truthy c2 key ttl net clk).2.
Proof.
  unfold cached_fetch.
  destruct (get_cached_response json_loads c1 key (get_mem clk) (get_db clk))
    as [c1' a1],
    (get_cached_response json_loads c2 key (get_mem clk) (get_db clk))
    as [c2' a2]; cbn [fst snd].
  intros ->.
  destruct a2 as [data |]; [destruct (truthy data); [reflexivity |] |];
    rewrite !request_and_store_outcome; reflexivity.
Qed.

(** A fetch leaves the tiers under the other keys, and the mode, as
    they were. *)
Lemma cached_fetch_frame c key key' ttl net clk :
  key <> key' ->
  _memory_cache (cached_fetch json_dumps json_loads truthy c key ttl net clk).1 !! key'
    = _memory_cache c !! key' /\
  api_cache (cached_fetch json_dumps json_loads truthy c key ttl net clk).1 !! key'
    = api_cache c !! key' /\
  session_only (cached_fetch json_dumps json_loads truthy c key ttl net clk).1
    = session_only c.
Proof.
  intros Hne.
  pose proof (StorageMore.get_frame json_loads c key key'
                (get_mem clk) (get_db clk) Hne) as Hget.
  assert (Hreq : forall c1,
             _memory_cache (request_and_store json_dumps c1 key ttl net clk).1 !! key'
               = _memory_cache c1 !! key' /\
             api_cache (request_and_store json_dumps c1 key ttl net clk).1 !! key'
               = api_cache c1 !! key' /\
             session_only (request_and_store json_dumps c1 key ttl net clk).1
               = session_only c1).
  { intros c1. unfold request_and_store.
    destruct (_make_request_internal net None) as [[tr [response | e]] |];
      cbn [fst]; auto.
    apply StorageMore.put_frame. exact Hne. }
  unfold cached_fetch.
  destruct (get_cached_response json_loads c key (get_mem clk) (get_db clk))
    as [c1 a1]; cbn [fst snd] in *.
  destruct Hget as (G1 & G2 & G3).
  destruct a1 as [data |]; [destruct (truthy data) |]; cbn [fst];
    try (destruct (Hreq c1) as (R1 & R2 & R3); rewrite R1, R2, R3); auto.
Qed.

Lemma fetches_apart c key key' ttl net clk ttl' net' clk' :
  key <> key' ->
  (cached_fetch json_dumps json_loads truthy
     (cached_fetch json_dumps json_loads truthy c key ttl net clk).1
     key' ttl' net' clk').2
  = (cached_fetch json_dumps json_loads truthy c key' ttl' net' clk').2.
Proof.
  intros Hne.
  destruct (cached_fetch_frame c key key' ttl net clk Hne) as (F1 & F2 & F3).
  apply cached_fetch_outcome_local, StorageMore.get_answer_local; assumption.
Qed.

(** [str] of an integer has no underscore. *)
Lemma pretty_N_go_free x : forall s,
  free_of "_"%char s -> free_of "_"%char (pretty_N_go x s).
Proof.
  induction (N.lt_wf_0 x) as [x _ IH]; intros s Hs.
  destruct (N.eq_dec x 0%N) as [-> | Hx]; [exact Hs |].
  rewrite pretty_N_go_step by lia.
  apply IH; [apply N.div_lt; lia |].
  split; [| exact Hs].
  unfold pretty_N_char. repeat case_match; discriminate.
Qed.

Lemma pretty_Z_free (z : Z) : free_of "_"%char (pretty z).
Proof.
  assert (HN : forall p : positive, free_of "_"%char (pretty p)).
  { intros p. unfold pretty, pretty_positive, pretty, pretty_N.
    case_decide; [cbn; split; [discriminate | exact I] |].
    apply pretty_N_go_free. exact I. }
  destruct z as [| p | p]; unfold pretty, pretty_Z.
  - cbn. split; [discriminate | exact I].
  - apply HN.
  - cbn. split; [discriminate | apply HN].
Qed.

(** Two texts without underscore, each followed by an underscore and
    some more, are read back from the whole. *)
Lemma append_underscore_inj (s1 : string) : forall s2 t1 t2 : string,
  free_of "_"%char s1 -> free_of "_"%char s2 ->
  (s1 ++ String "_"%char t1)%string = (s2 ++ String "_"%char t2)%string ->
  s1 = s2 /\ t1 = t2.
Proof.
  induction s1 as [| a s1 IH]; intros [| b s2] t1 t2 H1 H2 E; cbn in *.
  - injection E as <-. auto.
  - injection E as <- _. destruct H2 as [H2 _]. contradiction.
  - injection E as -> _. destruct H1 as [H1 _]. contradiction.
  - injection E as <- E. destruct H1 as [_ H1], H2 as [_ H2].
    destruct (IH s2 t1 t2 H1 H2 E) as [-> ->]. auto.
Qed.

Lemma reports_key_inj (limit offset limit' offset' : Z) :
  ("reports_" ++ pretty limit ++ "_" ++ pretty offset)%string
  = ("reports_" ++ pretty limit' ++ "_" ++ pretty offset')%string ->
  limit = limit' /\ offset = offset'.
Proof.
  intros E. cbn [String.append] in E.
  injection E as E.
  apply append_underscore_inj in E; [| apply pretty_Z_free ..].
  destruct E as [El Eo].
  split; eapply (inj pretty); eassumption.
Qed.

(** X18. Fetches for different players do not interfere: what
    [fetch_player_stats] returns or raises for one player is the same
    whether or not the stats of another player were fetched before
    it. *)
Theorem player_fetches_do_not_interfere c server server' clk clk'
    (player_id player_id' : string) :
  player_id <> player_id' ->
  (fetch_player_stats json_dumps json_loads truthy
     (fetch_player_stats json_dumps json_loads truthy c server player_id clk).1
     server' player_id' clk').2
  = (fetch_player_stats json_dumps json_loads truthy c server' player_id' clk').2.
Proof.
  intros Hne. unfold fetch_player_stats.
  apply fetches_apart. congruence.
Qed.

(** X19. Pages of faction reports are cached apart: two pages that
    differ in [limit] or [offset] have different cache keys
    [reports_<limit>_<offset>], so what [fetch_faction_reports] returns
    or raises for one page is the same whether or not another page was
    fetched before it. *)
Theorem report_pages_are_cached_apart c server server' clk clk'
    (limit offset limit' offset' : Z) :
  (limit, offset) <> (limit', offset') ->
  (fetch_faction_reports json_dumps json_loads truthy
     (fetch_faction_reports json_dumps json_loads truthy c server limit offset clk).1
     server' limit' offset' clk').2
  = (fetch_faction_reports json_dumps json_loads truthy c server'
       limit' offset' clk').2.
Proof.
  intros Hne. unfold fetch_faction_reports.
  apply fetches_apart. intros E.
  apply (f_equal snd) in E. cbn [snd] in E.
  apply reports_key_inj in E as [-> ->]. contradiction.
Qed.

End FetchLaws.

Import FetchSamples StorageSamples ApiSamples.

Lemma second_fetch_within_ttl_witness :
  cached_fetch id id json_truthy ten_attacks_fetched.1
    ("faction", "attacks")%string None always_refused (at_time 300)
  = (ten_attacks_fetched.1, Some ([], Return "{ten attacks}"%string)).
Proof.
  exact (second_fetch_within_ttl id id json_truthy empty_session_cache
           ("faction", "attacks")%string (Some 300)
           (attacks_server "/faction/attacks?limit=10&sort=DESC") (at_time 0)
           ten_attacks_fetched.1 [EvAcquire 1; EvRequest 0]
           "{ten attacks}"%string None always_refused (at_time 300)
           eq_refl (Nat.lt_0_succ 0) ltac:(vm_compute; discriminate)).
Defined.

(** The other case: an empty answer is asked for again, here half a
    second later and with success. *)
Example empty_answer_refetched :
  (fetch_user_bars id id json_truthy empty_bars_fetched.1
     attacks_server (at_time (1 # 2))).2
  = Some ([EvAcquire 1; EvRequest 0], Return "{more attacks}"%string).
Proof. reflexivity. Qed.

Lemma failed_fetch_caches_nothing_witness :
  (cached_fetch id id json_truthy
     (cached_fetch id id json_truthy empty_session_cache sample_key None
        always_refused (at_time 0)).1
     sample_key None answers_200 (at_time 5)).2
  = _make_request_internal answers_200 None.
Proof.
  refine (proj2 (failed_fetch_caches_nothing id id json_truthy
                   empty_session_cache sample_key None always_refused
                   (at_time 0) _ _ _ eq_refl _) None answers_200 (at_time 5)).
  reflexivity.
Defined.

Lemma attacks_cache_ignores_limit_witness :
  fetch_faction_attacks id id json_truthy ten_attacks_fetched.1
    attacks_server 500 (at_time 299)
  = (ten_attacks_fetched.1, Some ([], Return "{ten attacks}"%string)).
Proof.
  apply (attacks_cache_ignores_limit id id json_truthy empty_session_cache
           attacks_server 10 (at_time 0) ten_attacks_fetched.1
           [EvAcquire 1; EvRequest 0]).
  - reflexivity.
  - cbn. lia.
  - reflexivity.
  - vm_compute. discriminate.
Defined.

(** What the API would have served for [limit = 500]. *)
Example attacks_unlimited_on_a_cold_cache :
  (fetch_faction_attacks id id json_truthy empty_session_cache
     attacks_server 500 (at_time 299)).2
  = Some ([EvAcquire 1; EvRequest 0], Return "{more attacks}"%string).
Proof. reflexivity. Qed.

Lemma player_fetches_do_not_interfere_witness :
  (fetch_player_stats id id json_truthy
     (fetch_player_stats id id json_truthy empty_session_cache attacks_server
        "2531272" (at_time 0)).1
     server_down "2531273" (at_time 1)).2
  = (fetch_player_stats id id json_truthy empty_session_cache
       server_down "2531273" (at_time 1)).2.
Proof.
  apply (player_fetches_do_not_interfere id id json_truthy). discriminate.
Defined.

Lemma report_pages_are_cached_apart_witness :
  (fetch_faction_reports id id json_truthy
     (fetch_faction_reports id id json_truthy empty_session_cache attacks_server
        20 0 (at_time 0)).1
     attacks_server 20 20 (at_time 1)).2
  = (fetch_faction_reports id id json_truthy empty_session_cache
       attacks_server 20 20 (at_time 1)).2.
Proof.
  apply (report_pages_are_cached_apart id id json_truthy). intros [= ?].
Defined.

End FetchSpec.


Module KeyStoreSpec.
Import KeyStore.

Lemma apply_ttl s o : _ttl_seconds (apply s o) = _ttl_seconds s.
Proof.
  destruct o as [u k ty now | u now | u | u now]; cbn;
    unfold get_key, _expire_later_wake, clear_key, set_store;
    repeat case_match; reflexivity.
Qed.

Lemma run_ttl ops : forall s, _ttl_seconds (run_ops s ops) = _ttl_seconds s.
Proof.
  induction ops as [| o ops IH]; intros s; [reflexivity |].
  cbn. unfold run_ops in IH. rewrite IH. apply apply_ttl.
Qed.

Lemma tracks_later s m (t t' : Q) : (t <= t')%Q -> tracks s m t -> tracks s m t'.
Proof.
  intros Ht H u. specialize (H u).
  destruct (m !! u) as [[[k ty] ts] |]; [| exact H].
  cbn zeta in *. destruct H as [H | [H Hexp]]; [left; exact H |].
  right. split; [exact H |]. lra.
Qed.

(** Lazy deletion and the timer remove an entry only when it has
    expired; both keep [tracks]. *)
Lemma tracks_expire s m (t : Q) u :
  tracks s m t -> tracks (_expire_later_wake s u t) m t.
Proof.
  intros H v. specialize (H v). unfold _expire_later_wake.
  destruct (_store s !! u) as [e |] eqn:Eu; [| exact H].
  destruct (Qle_bool (expires_at e) t) eqn:Ee; [| exact H].
  apply Qle_bool_iff in Ee. cbn [_store _ttl_seconds set_store].
  destruct (decide (v = u)) as [-> | Hne].
  - rewrite lookup_delete_eq.
    destruct (m !! u) as [[[k ty] ts] |]; [| reflexivity].
    cbn zeta in *. right. split; [reflexivity |].
    destruct H as [H | [H _]]; [| congruence].
    rewrite Eu in H. injection H as ->. exact Ee.
  - rewrite lookup_delete_ne by congruence. exact H.
Qed.

Lemma get_key_store s u now : (get_key s u now).1 = _expire_later_wake s u now.
Proof.
  unfold get_key, _expire_later_wake.
  destruct (_store s !! u) as [e |]; [| reflexivity].
  destruct (Qle_bool (expires_at e) now); reflexivity.
Qed.

Lemma tracks_apply s m (t : Q) o :
  tracks s m t ->
  match op_time o with Some t' => (t <= t')%Q | None => True end ->
  tracks (apply s o) (keys_set m o)
    (match op_time o with Some t' => t' | None => t end).
Proof.
  intros H Ht.
  destruct o as [u k ty now | u now | u | u now]; cbn [op_time apply keys_set] in *.
  - apply (tracks_later _ _ _ _ Ht) in H.
    intros v. specialize (H v). cbn [set_key fst set_store _store _ttl_seconds].
    destruct (decide (v = u)) as [-> | Hne].
    + rewrite !lookup_insert_eq. left. reflexivity.
    + rewrite !lookup_insert_ne by congruence. exact H.
  - rewrite get_key_store. apply tracks_expire, (tracks_later _ _ _ _ Ht), H.
  - intros v. specialize (H v). cbn [clear_key set_store _store _ttl_seconds].
    destruct (decide (v = u)) as [-> | Hne].
    + rewrite !lookup_delete_eq. reflexivity.
    + rewrite !lookup_delete_ne by congruence. exact H.
  - apply tracks_expire, (tracks_later _ _ _ _ Ht), H.
Qed.

Lemma tracks_run ops : forall s m (t now : Q),
  tracks s m t -> in_order t ops now ->
  tracks (run_ops s ops) (foldl keys_set m ops) now.
Proof.
  induction ops as [| o ops IH]; intros s m t now H Hc; cbn in *.
  - exact (tracks_later _ _ _ _ Hc H).
  - pose proof (tracks_apply s m t o H) as Hstep.
    destruct (op_time o) as [t' |].
    + destruct Hc as [Ht Hc]. exact (IH _ _ _ _ (Hstep Ht) Hc).
    + exact (IH _ _ _ _ (Hstep I) Hc).
Qed.

(** X20. The key store is a map with expiry. Under a clock that does
    not go back, and whatever [get_key], [clear_key] and timer
    wake-ups took place in between, [get_key] returns for a user the
    key and type of the last [set_key] for that user, if no [clear_key]
    followed it and less than [ttl_seconds] have passed since it was
    set; in every other case it returns [None]. A key is gone at
    exactly [ttl_seconds] after it was set. *)
Theorem get_key_spec (ttl_seconds : Z) (created : Q) (ops : list Op)
    (user_id : Z) (now : Q) :
  in_order created ops now ->
  (get_key (run_ops (init ttl_seconds) ops) user_id now).2
  = match last_set ops !! user_id with
    | Some (api_key, key_type, set_at) =>
        if Qle_bool (set_at + inject_Z ttl_seconds) now then None
        else Some (api_key, key_type)
    | None => None
    end.
Proof.
  intros Hc.
  assert (H0 : tracks (init ttl_seconds) ∅ created).
  { intros u. rewrite lookup_empty. apply lookup_empty. }
  pose proof (tracks_run ops _ _ _ _ H0 Hc user_id) as H.
  rewrite run_ttl in H. cbn [init _ttl_seconds] in H.
  unfold last_set, get_key.
  destruct (foldl keys_set ∅ ops !! user_id) as [[[k ty] ts] |].
  - cbn zeta in H. destruct H as [-> | [-> Hexp]]; cbn [expires_at api_key key_type].
    + destruct (Qle_bool (ts + inject_Z ttl_seconds) now); reflexivity.
    + apply Qle_bool_iff in Hexp. rewrite Hexp. reflexivity.
  - rewrite H. reflexivity.
Qed.

Lemma run_app s ops ops' : run_ops s (ops ++ ops') = run_ops (run_ops s ops) ops'.
Proof. apply foldl_app. Qed.

(** Steps that do not set a key for [user_id] leave its entry as it is
    or remove it. *)
Lemma entry_kept_or_gone user_id e ops : forall s,
  Forall (fun o => sets_key user_id o = false) ops ->
  _store s !! user_id = None \/ _store s !! user_id = Some e ->
  _store (run_ops s ops) !! user_id = None \/
  _store (run_ops s ops) !! user_id = Some e.
Proof.
  induction ops as [| o ops IH]; intros s Hops H; [exact H |].
  apply Forall_cons in Hops as [Ho Hops]. cbn. apply IH; [exact Hops |].
  clear IH Hops.
  assert (Hdel : forall u,
             _store (set_store s (delete u (_store s))) !! user_id = None \/
             _store (set_store s (delete u (_store s))) !! user_id = Some e).
  { intros u. cbn [set_store _store].
    destruct (decide (u = user_id)) as [-> | Hne];
      [rewrite lookup_delete_eq; auto | rewrite lookup_delete_ne by exact Hne; exact H]. }
  destruct o as [u k ty now | u now | u | u now]; cbn [apply sets_key] in *.
  - cbn [set_key fst set_store _store].
    rewrite lookup_insert_ne; [exact H |].
    intros ->. rewrite bool_decide_eq_true_2 in Ho by reflexivity. discriminate.
  - rewrite get_key_store. unfold _expire_later_wake.
    repeat case_match; auto.
  - apply Hdel.
  - unfold _expire_later_wake. repeat case_match; auto.
Qed.

(** X21. Keys do not linger in memory. When a key is set and not set
    again, it is out of the store once its timer has woken up at or
    after the expiry time, whether or not anybody asked for it and
    whatever else happened to the store in between. *)
Theorem unrenewed_key_is_purged (s : ApiKeyStore) (user_id : Z)
    (api_key key_type : string) (set_at : Q) (ops : list Op) (wake : Q) :
  Forall (fun o => sets_key user_id o = false) ops ->
  (set_at + inject_Z (_ttl_seconds s) <= wake)%Q ->
  _store (run_ops (set_key s user_id api_key key_type set_at).1
            (ops ++ [TimerWakes user_id wake])) !! user_id = None.
Proof.
  intros Hops Hwake. rewrite run_app.
  set (e := mkEntry api_key key_type (set_at + inject_Z (_ttl_seconds s))).
  destruct (entry_kept_or_gone user_id e ops
              (set_key s user_id api_key key_type set_at).1 Hops) as [H | H].
  { right. cbn [set_key fst set_store _store]. apply lookup_insert_eq. }
  - set (s1 := run_ops _ ops) in *.
    change (run_ops s1 [TimerWakes user_id wake])
      with (_expire_later_wake s1 user_id wake).
    unfold _expire_later_wake. rewrite H. exact H.
  - set (s1 := run_ops _ ops) in *.
    change (run_ops s1 [TimerWakes user_id wake])
      with (_expire_later_wake s1 user_id wake).
    unfold _expire_later_wake. rewrite H.
    apply Qle_bool_iff in Hwake. subst e. cbn [expires_at]. rewrite Hwake.
    cbn [set_store _store]. apply lookup_delete_eq.
Qed.

Import KeyStoreSamples.

Lemma get_key_spec_witness :
  (get_key (run_ops (init 900) one_session) 7 1499).2
  = Some ("k-renewed"%string, "limited"%string).
Proof.
  apply (get_key_spec 900 0 one_session 7 1499).
  unfold one_session. cbn [in_order op_time].
  repeat match goal with |- _ /\ _ => split end; vm_compute; discriminate.
Defined.

(** At 1500, nine hundred seconds after the renewal, the key is gone. *)
Example key_gone_at_ttl :
  (get_key (run_ops (init 900) one_session) 7 1500).2 = None.
Proof. reflexivity. Qed.

Lemma unrenewed_key_is_purged_witness :
  _store (run_ops (set_key (init 900) 7 "k-limited" "limited" 0).1
            (other_users ++ [TimerWakes 7 900])) !! 7 = None.
Proof.
  apply (unrenewed_key_is_purged (init 900) 7 "k-limited" "limited" 0
           other_users 900).
  - unfold other_users. repeat constructor.
  - vm_compute. discriminate.
Defined.

End KeyStoreSpec.

Module BotSpec.
Import Bot.

Section Parse.

Context {Char : Type} `{EqDecision Char}.
Variable comma : Char.
Variable isspace : Char -> bool.
Variable isdigit : Char -> bool.

(** The comma is neither white space nor a digit, and no digit is
    white space. *)
Hypothesis comma_not_space : isspace comma = false.
Hypothesis comma_not_digit : isdigit comma = false.
Hypothesis digit_not_space : forall a, isdigit a = true -> isspace a = false.

Implicit Types (s p : list Char) (it : Item Char).

Lemma str_split_nonempty s : str_split comma s <> [].
Proof.
  destruct s as [| a s]; cbn; [discriminate |].
  destruct (decide (a = comma)); [discriminate |].
  destruct (str_split comma s); discriminate.
Qed.

Lemma str_split_no_comma p : comma ∉ p -> str_split comma p = [p].
Proof.
  induction p as [| a p IH]; intros Hp; [reflexivity |].
  apply not_elem_of_cons in Hp as [Ha Hp]. cbn.
  destruct (decide (a = comma)); [congruence |].
  rewrite (IH Hp). reflexivity.
Qed.

Lemma str_split_app p rest :
  comma ∉ p ->
  str_split comma (p ++ comma :: rest) = p :: str_split comma rest.
Proof.
  induction p as [| a p IH]; intros Hp; cbn.
  - destruct (decide (comma = comma)); [reflexivity | congruence].
  - apply not_elem_of_cons in Hp as [Ha Hp].
    destruct (decide (a = comma)); [congruence |].
    rewrite (IH Hp). reflexivity.
Qed.

(** [split] undoes [join] on pieces without comma. *)
Lemma str_split_join (pieces : list (list Char)) :
  pieces <> [] -> Forall (fun p => comma ∉ p) pieces ->
  str_split comma (str_join comma pieces) = pieces.
Proof.
  induction pieces as [| p pieces IH]; intros Hne Hall; [congruence |].
  apply Forall_cons in Hall as [Hp Hall].
  destruct pieces as [| q pieces].
  - cbn. apply str_split_no_comma, Hp.
  - change (str_join comma (p :: q :: pieces))
      with (p ++ comma :: str_join comma (q :: pieces)).
    rewrite (str_split_app _ _ Hp), IH; [reflexivity | discriminate | exact Hall].
Qed.

Lemma blanks_no_comma s : forallb isspace s = true -> comma ∉ s.
Proof.
  intros Hs Hin. rewrite forallb_forall in Hs.
  apply list_elem_of_In in Hin. specialize (Hs _ Hin). congruence.
Qed.

Lemma digits_no_comma s : forallb isdigit s = true -> comma ∉ s.
Proof.
  intros Hs Hin. rewrite forallb_forall in Hs.
  apply list_elem_of_In in Hin. specialize (Hs _ Hin). congruence.
Qed.

Lemma str_isdigit_all s : str_isdigit isdigit s = true -> forallb isdigit s = true.
Proof. destruct s; [discriminate | intros Hs; exact Hs]. Qed.

Lemma item_id_digits it :
  item_ok isspace isdigit it -> forallb isdigit (item_id it) = true.
Proof.
  intros (_ & _ & [-> | Hd]); [reflexivity | apply str_isdigit_all, Hd].
Qed.

Lemma typed_no_comma it : item_ok isspace isdigit it -> comma ∉ typed it.
Proof.
  intros Hok. pose proof (item_id_digits it Hok) as Hd.
  destruct Hok as (Hl & Hr & _). unfold typed.
  rewrite !not_elem_of_app.
  auto using blanks_no_comma, digits_no_comma.
Qed.

Lemma str_lstrip_blanks s s' :
  forallb isspace s = true ->
  str_lstrip isspace (s ++ s') = str_lstrip isspace s'.
Proof.
  induction s as [| a s IH]; intros Hs; [reflexivity |].
  cbn in *. apply andb_true_iff in Hs as [Ha Hs]. rewrite Ha. exact (IH Hs).
Qed.

Lemma str_lstrip_all_blank s :
  forallb isspace s = true -> str_lstrip isspace s = [].
Proof.
  intros Hs. rewrite <- (app_nil_r s) at 1.
  rewrite (str_lstrip_blanks _ _ Hs). reflexivity.
Qed.

Lemma str_lstrip_digits s s' :
  forallb isdigit s = true -> s <> [] ->
  str_lstrip isspace (s ++ s') = s ++ s'.
Proof.
  destruct s as [| a s]; intros Hs Hne; [congruence |].
  cbn in *. apply andb_true_iff in Hs as [Ha _].
  rewrite (digit_not_space _ Ha). reflexivity.
Qed.

Lemma forallb_reverse (f : Char -> bool) s :
  forallb f (reverse s) = forallb f s.
Proof.
  induction s as [| a s IH]; [reflexivity |].
  rewrite reverse_cons, forallb_app, IH. cbn. 
  destruct (f a), (forallb f s); reflexivity.
Qed.

(** [strip] gives back what was typed between the blanks. *)
Lemma str_strip_typed it :
  item_ok isspace isdigit it -> str_strip isspace (typed it) = item_id it.
Proof.
  intros Hok. pose proof (item_id_digits it Hok) as Hd.
  destruct Hok as (Hl & Hr & _). unfold str_strip, str_rstrip, typed.
  rewrite (str_lstrip_blanks _ _ Hl).
  destruct (item_id it) as [| a s] eqn:Eid.
  - cbn [app]. rewrite (str_lstrip_all_blank _ Hr). reflexivity.
  - rewrite (str_lstrip_digits (a :: s) _ Hd) by discriminate.
    rewrite reverse_app.
    rewrite str_lstrip_blanks by (rewrite forallb_reverse; exact Hr).
    rewrite <- (app_nil_r (reverse (a :: s))).
    rewrite str_lstrip_digits.
    + rewrite app_nil_r. apply reverse_involutive.
    + rewrite forallb_reverse. exact Hd.
    + rewrite reverse_cons. intros E. apply app_eq_nil in E as [_ E].
      discriminate.
Qed.

(** The comprehension keeps the IDs typed, in order. *)
Lemma member_ids_typed (items : list (Item Char)) :
  Forall (item_ok isspace isdigit) items ->
  str_strip isspace
    <$> filter (fun mid => str_strip isspace mid <> []) (typed <$> items)
  = filter (fun id => id <> []) (item_id <$> items).
Proof.
  induction items as [| it items IH]; intros Hall; [reflexivity |].
  apply Forall_cons in Hall as [Hok Hall].
  rewrite !fmap_cons, !filter_cons, (str_strip_typed it Hok).
  destruct (decide (item_id it <> [])).
  - rewrite fmap_cons, (str_strip_typed it Hok), (IH Hall). reflexivity.
  - exact (IH Hall).
Qed.

Lemma find_no_bad_id (items : list (Item Char)) :
  Forall (item_ok isspace isdigit) items ->
  List.find (fun member_id => negb (str_isdigit isdigit member_id))
    (filter (fun id => id <> []) (item_id <$> items)) = None.
Proof.
  induction items as [| it items IH]; intros Hall; [reflexivity |].
  apply Forall_cons in Hall as [Hok Hall].
  rewrite fmap_cons, filter_cons.
  destruct (decide (item_id it <> [])) as [Hne |]; [| exact (IH Hall)].
  cbn [List.find].
  destruct Hok as (_ & _ & [E | Hd]); [congruence |].
  rewrite Hd. exact (IH Hall).
Qed.

(** X22. [parse_member_ids] reads back what was typed. A text made of
    items separated by commas, every item an ID written in digits or
    nothing at all, with any white space around it, is parsed into the
    list of the IDs, in the order typed, without the blanks and the
    empty items, provided there is at least one ID. *)
Theorem parse_member_ids_round_trip (items : list (Item Char)) :
  Forall (item_ok isspace isdigit) items ->
  filter (fun id => id <> []) (item_id <$> items) <> [] ->
  parse_member_ids comma isspace isdigit (str_join comma (typed <$> items))
  = MemberIds (filter (fun id => id <> []) (item_id <$> items)).
Proof.
  intros Hall Hne. unfold parse_member_ids.
  rewrite str_split_join.
  - rewrite (member_ids_typed items Hall), (find_no_bad_id items Hall).
    destruct (filter _ (item_id <$> items)); [congruence | reflexivity].
  - destruct items; [cbn in Hne; congruence | discriminate].
  - rewrite Forall_fmap. eapply Forall_impl; [exact Hall |].
    intros it Hok. apply typed_no_comma, Hok.
Qed.

End Parse.

Import BotSamples Stdlib.Strings.Ascii.

Lemma parse_member_ids_round_trip_witness :
  parse_member_ids ","%char isspace isdigit (chars "123, 456, 789 , ")
  = MemberIds [chars "123"; chars "456"; chars "789"].
Proof.
  apply (parse_member_ids_round_trip ","%char isspace isdigit
           eq_refl eq_refl
           ltac:(intros [[] [] [] [] [] [] [] []]; vm_compute; congruence)
           placeholder).
  - unfold placeholder.
    repeat first [apply Forall_nil_2 | apply Forall_cons_2];
      (split; [reflexivity | split; [reflexivity |]]);
      first [left; reflexivity | right; reflexivity].
  - vm_compute. discriminate.
Defined.

End BotSpec.
